(** * Particle engine of the flower canvas: allocator, bursts, mode machine,
      blend integrator, lotus layout and pointer raycast.

    Shallow embedding of [ParticleCanvas] (the three.js variant of the
    component).

    - Particle indices are integers ([Z]); a [Float32Array] is a total map
      from flat index to a number, written by function update.
    - Numbers are exact rationals ([Q]): the rounding of IEEE arithmetic is
      not modelled.  Only the pointer raycast, whose contract speaks about
      NaN, is modelled on binary64 floats.
    - The refs ([fireworkCursorRef], [fireworksRef], the mode flags, the
      buffers) are the fields of an explicit state threaded through
      [animate] and [handleClick]; a run is a list of clicks and frames.
    - What the code takes from outside enters as input: the clock, the
      draws of [Math.random()], the hands of a video frame, [Math.sin],
      [Math.cos] and [Math.sqrt], the generated shape buffers.
    - The physics block of [animate] is modelled as it runs once mounted
      ([geometryRef] and [currentPositionsRef] set).  Camera zoom, group
      rotation, the left-hand rotation and the HUD write none of the state
      modelled here and are left out. *)

From Stdlib Require Import ZArith QArith Qminmax Lia Lqa Bool.
From Stdlib Require Import Floats.
From stdpp Require Import base list sorting gmap sets.

Local Open Scope Z_scope.

(** ** Configuration constants *)

Module Config.

Definition FLOWER_COUNT : Z := 150000.
Definition BG_COUNT : Z := 30000.
Definition PARTICLE_COUNT : Z := FLOWER_COUNT + BG_COUNT.

Definition FIREWORK_PARTICLES_COUNT : Z := 25000.
Definition FIREWORK_PARTICLES_START : Z := FLOWER_COUNT.

(** Locals of [spawnFirework]. *)
Definition TRAIL_LEN : nat := 12.
Definition SPARK_CNT : nat := 50.

End Config.
Import Config.

(** ** Transient slot allocator *)

(** The loop of [allocateParticles]: push [ptr], advance, wrap at
    [PARTICLE_COUNT] back to [FIREWORK_PARTICLES_START]. *)
Fixpoint alloc_loop (count : nat) (ptr : Z) (indices : list Z) : list Z * Z :=
  match count with
  | O => (indices, ptr)
  | S n =>
      let indices := indices ++ [ptr] in
      let ptr := ptr + 1 in
      let ptr := if PARTICLE_COUNT <=? ptr then FIREWORK_PARTICLES_START else ptr in
      alloc_loop n ptr indices
  end.

(** [allocateParticles count] run with [fireworkCursorRef.current = cursor]:
    the indices returned and the cursor stored back. *)
Definition allocateParticles (cursor : Z) (count : nat) : list Z * Z :=
  alloc_loop count cursor [].

(** The reserved range is a ring of [RING_SIZE] slots; [ring_at c m] is the
    slot reached from [c] after [m] advances of the cursor. *)
Definition RING_SIZE : Z := PARTICLE_COUNT - FIREWORK_PARTICLES_START.

Definition in_ring (x : Z) : Prop :=
  FIREWORK_PARTICLES_START <= x < PARTICLE_COUNT.

Definition ring_at (c m : Z) : Z :=
  FIREWORK_PARTICLES_START + (c - FIREWORK_PARTICLES_START + m) mod RING_SIZE.

(** Number of indices one [spawnFirework] asks for: [SPARK_CNT * (1 + TRAIL_LEN)]. *)
Definition totalNeeded : nat := (SPARK_CNT * (1 + TRAIL_LEN))%nat.

(** ** Data model *)

(** A [Float32Array] read and written by flat index. *)
Definition buf : Type := Z -> Q.

Definition bset (b : buf) (i : Z) (v : Q) : buf :=
  fun j => if j =? i then v else b j.

Record Vector3 : Type := mkVector3 { vx : Q; vy : Q; vz : Q }.

Record Color : Type := mkColor { cr : Q; cg : Q; cb : Q }.

Definition read3 (b : buf) (ix : Z) : Vector3 := mkVector3 (b ix) (b (ix + 1)) (b (ix + 2)).

Record Spark : Type := mkSpark {
  headIdx : Z;
  trailIndices : list Z   (* indices following the head *)
}.

Record Firework : Type := mkFirework {
  fw_id : Q;
  age : Z;
  color : Color;
  sparks : list Spark
}.

(** The three arrays the burst code and the particle pass write:
    [currentPositionsRef], [driftRef] and the geometry's colour attribute. *)
Record Buffers : Type := mkBuffers {
  curr : buf;
  drifts : buf;
  cols : buf
}.

(** Indices owned by a spark and by a firework: heads and trails. *)
Definition spark_indices (s : Spark) : list Z := headIdx s :: trailIndices s.

Definition firework_indices (fw : Firework) : list Z :=
  concat (spark_indices <$> sparks fw).

(** ** Burst subsystem: [spawnFirework] *)

(** What [spawnFirework] draws from the clock and the random generator:
    [Date.now()], the HSL base colour, and per spark the velocity
    [(speed sin phi cos theta, speed sin phi sin theta, speed cos phi)]. *)
Record SpawnDraw : Type := mkSpawnDraw {
  draw_id : Q;
  draw_color : Color;
  draw_velocity : nat -> Vector3
}.

(** The inner loop [for t < TRAIL_LEN: if (idxPtr < indices.length) push]:
    [rest] is [indices] from [idxPtr] on. *)
Fixpoint take_trail (t : nat) (rest : list Z) : list Z * list Z :=
  match t with
  | O => ([], rest)
  | S t' =>
      match rest with
      | [] => ([], [])
      | i :: rest' => let '(trail, rest'') := take_trail t' rest' in (i :: trail, rest'')
      end
  end.

(** Head set-up: position, velocity into [drifts], bright white colour. *)
Definition setup_head (position vel : Vector3) (headIdx : Z) (b : Buffers) : Buffers :=
  let h3 := headIdx * 3 in
  {| curr := bset (bset (bset (curr b) h3 (vx position)) (h3 + 1) (vy position))
               (h3 + 2) (vz position);
     drifts := bset (bset (bset (drifts b) h3 (vx vel)) (h3 + 1) (vy vel)) (h3 + 2) (vz vel);
     cols := bset (bset (bset (cols b) h3 1%Q) (h3 + 1) 1%Q) (h3 + 2) 1%Q |}.

(** Trail set-up, one [forEach] step: collapsed on the start point, invisible. *)
Definition setup_trail (position : Vector3) (b : Buffers) (ti : Z) : Buffers :=
  let t3 := ti * 3 in
  {| curr := bset (bset (bset (curr b) t3 (vx position)) (t3 + 1) (vy position))
               (t3 + 2) (vz position);
     drifts := drifts b;
     cols := bset (bset (bset (cols b) t3 0%Q) (t3 + 1) 0%Q) (t3 + 2) 0%Q |}.

(** The loop [for k < SPARK_CNT] of [spawnFirework]; [k] iterations remain,
    [n] sparks are built, [rest] is [indices] from [idxPtr] on. *)
Fixpoint spawn_sparks (k n : nat) (position : Vector3) (d : SpawnDraw)
    (rest : list Z) (acc : list Spark) (b : Buffers) : list Spark * Buffers :=
  match k with
  | O => (acc, b)
  | S k' =>
      match rest with
      | [] => (acc, b)                                   (* break *)
      | headIdx :: rest1 =>
          let '(trailIndices, rest2) := take_trail TRAIL_LEN rest1 in
          let acc := acc ++ [mkSpark headIdx trailIndices] in
          let b := setup_head position (draw_velocity d n) headIdx b in
          let b := foldl (setup_trail position) b trailIndices in
          spawn_sparks k' (S n) position d rest2 acc b
      end
  end.

(** Burst state: [fireworkCursorRef], [fireworksRef], [lastFireworkTimeRef]. *)
Record Burst : Type := mkBurst {
  fireworkCursor : Z;
  fireworks : list Firework;
  lastFireworkTime : Q
}.

Definition spawnFirework (position : Vector3) (d : SpawnDraw)
    (bs : Burst) (b : Buffers) : Burst * Buffers :=
  let '(indices, cursor) := allocateParticles (fireworkCursor bs) totalNeeded in
  let '(sparks, b) := spawn_sparks SPARK_CNT 0 position d indices [] b in
  ({| fireworkCursor := cursor;
      fireworks := fireworks bs ++ [mkFirework (draw_id d) 0 (draw_color d) sparks];
      lastFireworkTime := lastFireworkTime bs |}, b).

(** ** Burst subsystem: the per-frame update *)

Definition gravity : Q := 0.004.
Definition drag : Q := 0.96.
Definition LIFETIME : Z := 90.

(** [Math.max(0, 1 - fw.age / 90)] *)
Definition lifeRatio (age : Z) : Q := (Qmax 0 (1 - inject_Z age / 90))%Q.

(** Gravity on the y component, drag on all three, then integration of the
    head position. *)
Definition head_physics (headI : Z) (b : Buffers) : Buffers :=
  let h1 := headI + 1 in
  let h2 := headI + 2 in
  let d := drifts b in
  let d := bset d h1 (d h1 - gravity)%Q in
  let d := bset d headI (d headI * drag)%Q in
  let d := bset d h1 (d h1 * drag)%Q in
  let d := bset d h2 (d h2 * drag)%Q in
  let c := curr b in
  let c := bset c headI (c headI + d headI)%Q in
  let c := bset c h1 (c h1 + d h1)%Q in
  let c := bset c h2 (c h2 + d h2)%Q in
  {| curr := c; drifts := d; cols := cols b |}.

Definition set_color (k : buf) (i3 : Z) (col : Color) (f : Q) : buf :=
  bset (bset (bset k i3 (cr col * f)%Q) (i3 + 1) (cg col * f)%Q) (i3 + 2) (cb col * f)%Q.

(** Intensity of trail segment [t >= 1] of a trail of [len] segments. *)
Definition trail_intensity (lr : Q) (t len : nat) : Q :=
  (lr * (1 - inject_Z (Z.of_nat t) / inject_Z (Z.of_nat len)) * 0.8)%Q.

(** Body of the trail loop at position [t]: segment [t] takes the position
    of segment [t-1] and its faded colour. *)
Definition trail_shift (col : Color) (lr : Q) (trail : list Z) (t : nat) (b : Buffers) : Buffers :=
  let currT := nth t trail 0 * 3 in
  let prevT := nth (t - 1) trail 0 * 3 in
  let c := curr b in
  let c := bset c currT (c prevT) in
  let c := bset c (currT + 1) (c (prevT + 1)) in
  let c := bset c (currT + 2) (c (prevT + 2)) in
  {| curr := c; drifts := drifts b;
     cols := set_color (cols b) currT col (trail_intensity lr t (length trail)) |}.

(** [for (t = start; t > 0; t--)] *)
Fixpoint trail_loop (col : Color) (lr : Q) (trail : list Z) (t : nat) (b : Buffers) : Buffers :=
  match t with
  | O => b
  | S t' => trail_loop col lr trail t' (trail_shift col lr trail (S t') b)
  end.

(** The head keeps the firework's colour. *)
Definition head_color (headI : Z) (col : Color) (b : Buffers) : Buffers :=
  {| curr := curr b; drifts := drifts b;
     cols := bset (bset (bset (cols b) headI (cr col)) (headI + 1) (cg col))
               (headI + 2) (cb col) |}.

(** "4. Connect first trail to Head's old pos" *)
Definition connect_trail (col : Color) (lr : Q) (trail : list Z) (prevH : Vector3)
    (b : Buffers) : Buffers :=
  match trail with
  | [] => b
  | ti0 :: _ =>
      let t0 := ti0 * 3 in
      {| curr := bset (bset (bset (curr b) t0 (vx prevH)) (t0 + 1) (vy prevH))
                   (t0 + 2) (vz prevH);
         drifts := drifts b;
         cols := bset (bset (bset (cols b) t0 (cr col * lr * 0.9)%Q)
                   (t0 + 1) (cg col * lr * 0.9)%Q) (t0 + 2) (cb col * lr * 0.9)%Q |}
  end.

(** One step of [fw.sparks.forEach], for a firework of colour [col] whose
    age after the increment is [age']: mark the indices active, capture the
    head position, head physics and colour, trail propagation from the last
    segment down to segment 1, then segment 0 onto the captured position. *)
Definition update_spark (age' : Z) (col : Color) (st : Buffers * gset Z) (spark : Spark)
    : Buffers * gset Z :=
  let '(b, active) := st in
  let headI := headIdx spark * 3 in
  let active := {[ headIdx spark ]} ∪ active in
  let active := foldl (fun a ti => {[ ti ]} ∪ a) active (trailIndices spark) in
  let prevH := read3 (curr b) headI in
  let b := head_physics headI b in
  let lr := lifeRatio age' in
  let b := head_color headI col b in
  let b := trail_loop col lr (trailIndices spark) (length (trailIndices spark) - 1) b in
  let b := connect_trail col lr (trailIndices spark) prevH b in
  (b, active).

Definition aged (fw : Firework) : Firework :=
  {| fw_id := fw_id fw; age := age fw + 1; color := color fw; sparks := sparks fw |}.

(** [fireworksRef.current.filter(fw => { fw.age++; ...; return fw.age < 90 })]:
    the callback runs on every firework, in order, and mutates the buffers
    and the set of active indices. *)
Fixpoint update_fireworks (fws : list Firework) (st : Buffers * gset Z)
    : list Firework * (Buffers * gset Z) :=
  match fws with
  | [] => ([], st)
  | fw :: rest =>
      let fw' := aged fw in
      let st := foldl (update_spark (age fw') (color fw')) st (sparks fw') in
      let '(kept, st) := update_fireworks rest st in
      (if age fw' <? LIFETIME then fw' :: kept else kept, st)
  end.

(** ** Mode state machine *)

Definition Qltb (a b : Q) : bool := negb (Qle_bool b a).

(** What the sensor block reads off the right hand: the thumb-index
    distance [Math.hypot(thumb - index)] and the index tip. *)
Record RightHand : Type := mkRightHand {
  pinchDist : Q;
  indexX : Q;
  indexY : Q
}.

(** One processed video frame.  The geometric predicates over the landmarks
    enter as their outcomes: [magicPose] is "both hands are sword fingers,
    crossed, wrists closer than 0.35", [palmsMerged] is "wrists closer than
    0.25 and pinky tips closer than 0.08"; both are read only when both
    hands are present. *)
Record Hands : Type := mkHands {
  rightHand : option RightHand;
  leftHand : bool;
  magicPose : bool;
  palmsMerged : bool
}.

Record Mode : Type := mkMode {
  magicModeDebounce : Z;
  isMagicMode : bool;
  isGalaxyMode : bool;
  galaxyTransition : Q;
  magicTransition : Q;
  handFactor : Q
}.

Definition bothHands (h : Hands) : bool :=
  match rightHand h with Some _ => leftHand h | None => false end.

Definition magicGestureDetected (h : Hands) : bool := bothHands h && magicPose h.

(** "Smooth State Transition (Debounce)": the counter, then enter / exit. *)
Definition debounce_step (detected : bool) (m : Mode) : Mode :=
  let c := if detected then Z.min (magicModeDebounce m + 1) 10
           else Z.max (magicModeDebounce m - 1) 0 in
  if 6 <? c then
    {| magicModeDebounce := c; isMagicMode := true; isGalaxyMode := false;
       galaxyTransition := galaxyTransition m; magicTransition := magicTransition m;
       handFactor := handFactor m |}
  else if c <? 2 then
    {| magicModeDebounce := c; isMagicMode := false; isGalaxyMode := isGalaxyMode m;
       galaxyTransition := galaxyTransition m; magicTransition := magicTransition m;
       handFactor := handFactor m |}
  else
    {| magicModeDebounce := c; isMagicMode := isMagicMode m; isGalaxyMode := isGalaxyMode m;
       galaxyTransition := galaxyTransition m; magicTransition := magicTransition m;
       handFactor := handFactor m |}.

Definition set_handFactor (m : Mode) (hf : Q) : Mode :=
  {| magicModeDebounce := magicModeDebounce m; isMagicMode := isMagicMode m;
     isGalaxyMode := isGalaxyMode m; galaxyTransition := galaxyTransition m;
     magicTransition := magicTransition m; handFactor := hf |}.

Definition set_isGalaxyMode (m : Mode) (g : bool) : Mode :=
  {| magicModeDebounce := magicModeDebounce m; isMagicMode := isMagicMode m;
     isGalaxyMode := g; galaxyTransition := galaxyTransition m;
     magicTransition := magicTransition m; handFactor := handFactor m |}.

(** The bloom target of the right hand: [(dist - 0.03) * 8] clamped to [0, 2.5]. *)
Definition bloom_target (dist : Q) : Q := (Qmax 0 (Qmin 2.5 ((dist - 0.03) * 8.0)))%Q.

(** "1. Right Hand: Bloom & Fireworks (Only if not magic)" *)
Definition right_hand_step (timeNow : Q) (h : Hands) (d : SpawnDraw)
    (m : Mode) (bs : Burst) (b : Buffers) : Mode * (Burst * Buffers) :=
  match rightHand h with
  | Some rh =>
      if isMagicMode m then (m, (bs, b))
      else
        let dist := pinchDist rh in
        let rightHandPos :=
          mkVector3 ((0.5 - indexX rh) * 5) ((0.5 - indexY rh) * 4 + 1.0) 0 in
        let sb :=
          if Qltb dist 0.04 && Qltb 250 (timeNow - lastFireworkTime bs) then
            spawnFirework rightHandPos d
              {| fireworkCursor := fireworkCursor bs; fireworks := fireworks bs;
                 lastFireworkTime := timeNow |} b
          else (bs, b) in
        (set_handFactor m (handFactor m + (bloom_target dist - handFactor m) * 0.2), sb)
  | None =>
      (set_handFactor m (handFactor m + (0 - handFactor m) * 0.05), (bs, b))
  end%Q.

(** "3. Galaxy (Palms Merged & Pinkies Touch) - Only if not Magic" *)
Definition galaxy_step (h : Hands) (m : Mode) : Mode :=
  if bothHands h && negb (isMagicMode m) then set_isGalaxyMode m (palmsMerged h)
  else if negb (isMagicMode m) then set_isGalaxyMode m false
  else m.

(** The sensor block of [animate], run when a new video frame is there. *)
Definition sensor_step (timeNow : Q) (h : Hands) (d : SpawnDraw)
    (m : Mode) (bs : Burst) (b : Buffers) : Mode * (Burst * Buffers) :=
  let m := debounce_step (magicGestureDetected h) m in
  let '(m, sb) := right_hand_step timeNow h d m bs b in
  (galaxy_step h m, sb).

(** "1. Mode Transitions": exponential smoothing of the two blend weights. *)
Definition transition_step (m : Mode) : Mode :=
  let targetGalaxy : Q := if isGalaxyMode m then 1.0%Q else 0.0%Q in
  let targetMagic : Q := if isMagicMode m then 1.0%Q else 0.0%Q in
  {| magicModeDebounce := magicModeDebounce m; isMagicMode := isMagicMode m;
     isGalaxyMode := isGalaxyMode m;
     galaxyTransition := galaxyTransition m + (targetGalaxy - galaxyTransition m) * 0.08;
     magicTransition := magicTransition m + (targetMagic - magicTransition m) * 0.1;
     handFactor := handFactor m |}%Q.

(** ** Blend / physics integrator: the steady particle pass *)

(** The generated shape buffers, immutable after start-up. *)
Record Shapes : Type := mkShapes {
  lotusPos : buf; galPos : buf; magPos : buf;
  lotusCol : buf; galCol : buf; magCol : buf
}.

(** What a frame reads from outside: [performance.now()], the draws of
    [Math.random()] (by particle and by call site) and the pointer's world
    point held in [mouseWorldPosRef]. *)
Record FrameEnv : Type := mkFrameEnv {
  timeNow : Q;
  random : Z -> nat -> Q;
  mouse : Vector3
}.

Definition lerp (a b t : Q) : Q := (a + (b - a) * t)%Q.

Definition lerp3 (a b : Vector3) (t : Q) : Vector3 :=
  mkVector3 (lerp (vx a) (vx b) t) (lerp (vy a) (vy b) t) (lerp (vz a) (vz b) t).

Section Integrator.

Local Open Scope Q_scope.

(** [Math.sin], [Math.cos] and [Math.sqrt] are taken as they come. *)
Variables sin cos sqrt : Q -> Q.

Variable shapes : Shapes.
Variable env : FrameEnv.
(** Frame-wide values: [isGalaxyModeRef.current], [gT], [mT], [bloomFactor]. *)
Variable isGalaxy : bool.
Variables gT mT bloomFactor : Q.

Definition bloomScale : Q := 1 + bloomFactor * 2.0.
Definition bloomSpread : Q := bloomFactor * 2.5.

(** "Bloom (If not Galaxy)": scale and random spread of the intermediate. *)
Definition bloom_adjust (i : Z) (t : Vector3) : Vector3 :=
  if negb isGalaxy && Qltb 0.05 bloomFactor && Qltb mT 0.1 then
    let influence := 1 - gT in
    let scale := 1 + (bloomScale - 1) * influence in
    let spread := bloomSpread * influence in
    mkVector3 (vx t * scale + (random env i 0%nat - 0.5) * spread * 0.5)
              (vy t * scale + (random env i 1%nat - 0.5) * spread * 0.5)
              (vz t * scale + (random env i 2%nat - 0.5) * spread * 0.5)
  else t.

(** Ambient idle motion from the particle's phase and amplitude. *)
Definition idle_adjust (drifts : buf) (ix : Z) (t : Vector3) : Vector3 :=
  if negb isGalaxy && Qltb bloomFactor 0.1 && Qltb mT 0.1 then
    let phase := drifts ix in
    let amp := drifts (ix + 1)%Z in
    let freq := 0.0008 in
    mkVector3 (vx t + sin (timeNow env * freq + phase) * amp)
              (vy t + cos (timeNow env * freq + phase * 0.5) * amp)
              (vz t + sin (timeNow env * freq * 1.2 + phase) * amp)
  else t.

Definition rotate (a : Q) (m : Vector3) : Vector3 :=
  mkVector3 (vx m * cos a - vy m * sin a) (vx m * sin a + vy m * cos a) (vz m).

(** "Magic Shield Transform (Spinning logic)", applied to the magic target. *)
Definition magic_spin (m : Vector3) : Vector3 :=
  let spin1 := timeNow env * 0.0005 in
  let spin2 := - timeNow env * 0.001 in
  let spin3 := timeNow env * 0.002 in
  if Qltb 0.01 mT then
    let dist := sqrt (vx m * vx m + vy m * vy m) in
    if Qltb 1.9 dist then rotate spin1 m
    else if Qltb 1.3 dist && Qltb dist 1.6 then rotate spin2 m
    else if Qltb dist 1.0 then rotate spin3 m
    else m
  else m.

(** The target of particle [i] for this frame: Lotus to Galaxy, bloom and
    idle motion, then the lerp to the spun Magic target. *)
Definition blend_target (drifts : buf) (i : Z) : Vector3 :=
  let ix := (i * 3)%Z in
  let t := lerp3 (read3 (lotusPos shapes) ix) (read3 (galPos shapes) ix) gT in
  let t := bloom_adjust i t in
  let t := idle_adjust drifts ix t in
  lerp3 t (magic_spin (read3 (magPos shapes) ix)) mT.

(** "Color Morph" up to the magic glow. *)
Definition blend_color (i : Z) : Color :=
  let ix := (i * 3)%Z in
  let r := lerp (lotusCol shapes ix) (galCol shapes ix) gT in
  let g := lerp (lotusCol shapes (ix + 1)%Z) (galCol shapes (ix + 1)%Z) gT in
  let b := lerp (lotusCol shapes (ix + 2)%Z) (galCol shapes (ix + 2)%Z) gT in
  let '(r, g, b) :=
    if Qltb 0.5 gT && (Z.rem i 7 =? 0)%Z then
      let speed := 0.003 + inject_Z (Z.rem i 10) * 0.0005 in
      let phase := inject_Z i * 0.1 in
      let intensity := 0.8 + 0.5 * sin (timeNow env * speed + phase) in
      (r * intensity, g * intensity, b * intensity)
    else (r, g, b) in
  let r := lerp r (magCol shapes ix) mT in
  let g := lerp g (magCol shapes (ix + 1)%Z) mT in
  let b := lerp b (magCol shapes (ix + 2)%Z) mT in
  if Qltb 0.01 mT then
    let pulse := sin (timeNow env * 0.003) * 0.2 + 0.2 in
    let shimmer := sin (timeNow env * 0.01 + inject_Z ix) * 0.1 in
    let totalGlow := (pulse + shimmer) * mT in
    mkColor (r + totalGlow) (g + totalGlow * 0.8) (b + totalGlow * 0.2)
  else mkColor r g b.

(** The body of the loop over [i] for a particle that is not skipped. *)
Definition steady_particle (i : Z) (b : Buffers) : Buffers :=
  let ix := (i * 3)%Z in
  let ix1 := (ix + 1)%Z in
  let ix2 := (ix + 2)%Z in
  let t := blend_target (drifts b) i in
  let damping := 0.05 + mT * 0.1 in
  let c := curr b in
  let c := bset c ix (c ix + (vx t - c ix) * damping) in
  let c := bset c ix1 (c ix1 + (vy t - c ix1) * damping) in
  let c := bset c ix2 (c ix2 + (vz t - c ix2) * damping) in
  let col := blend_color i in
  let dx := c ix - vx (mouse env) in
  let dy := c ix1 - vy (mouse env) in
  let dz := c ix2 - vz (mouse env) in
  let distSq := dx * dx + dy * dy + dz * dz in
  let '(col, c) :=
    if Qltb distSq 0.2 then
      (mkColor (Qmin 1.0 (cr col + 0.4)) (Qmin 1.0 (cg col + 0.4)) (Qmin 1.0 (cb col + 0.4)),
       let c := bset c ix (c ix + (random env i 3%nat - 0.5) * 0.03) in
       let c := bset c ix1 (c ix1 + (random env i 4%nat - 0.5) * 0.03) in
       bset c ix2 (c ix2 + (random env i 5%nat - 0.5) * 0.03))
    else (col, c) in
  {| curr := c; drifts := drifts b;
     cols := bset (bset (bset (cols b) ix (cr col)) ix1 (cg col)) ix2 (cb col) |}.

(** One iteration: [if (activeFireworkIndices.has(i)) continue;]. *)
Definition steady_step (active : gset Z) (b : Buffers) (i : Z) : Buffers :=
  if decide (i ∈ active) then b else steady_particle i b.

(** [for (let i = 0; i < PARTICLE_COUNT; i++)] *)
Definition steady_pass (active : gset Z) (b : Buffers) : Buffers :=
  foldl (steady_step active) b (seqZ 0 PARTICLE_COUNT).

End Integrator.

Arguments steady_pass : simpl never.

(** ** The engine: [animate], [handleClick] and runs *)

Record Engine : Type := mkEngine {
  mode : Mode;
  burst : Burst;
  bufs : Buffers
}.

(** One call of [animate]: its clock, randomness and pointer, the hands of
    a new video frame ([None] when no new frame is there, the sensor block
    is then skipped) and the draws of a spawn it may trigger. *)
Record Frame : Type := mkFrame {
  env : FrameEnv;
  video : option Hands;
  draw : SpawnDraw
}.

Inductive Event : Type :=
  | Click (target : Vector3) (d : SpawnDraw)   (* [handleClick]: burst at [target] *)
  | Animate (f : Frame).

Definition set_fireworks (bs : Burst) (fws : list Firework) : Burst :=
  {| fireworkCursor := fireworkCursor bs; fireworks := fws;
     lastFireworkTime := lastFireworkTime bs |}.

Section Run.

Variables sin cos sqrt : Q -> Q.
Variable shapes : Shapes.

(** "SENSOR LOGIC": run when a new video frame is there. *)
Definition sense (f : Frame) (e : Engine) : Mode * (Burst * Buffers) :=
  match video f with
  | Some h => sensor_step (timeNow (env f)) h (draw f) (mode e) (burst e) (bufs e)
  | None => (mode e, (burst e, bufs e))
  end.

(** "PHYSICS & ANIMATION": mode transitions, the fireworks update, which
    rebuilds the set of active indices from empty, then the particle pass. *)
Definition animate (f : Frame) (e : Engine) : Engine :=
  let '(m, (bs, b)) := sense f e in
  let m := transition_step m in
  let '(kept, (b, active)) := update_fireworks (fireworks bs) (b, ∅) in
  let b := steady_pass sin cos sqrt shapes (env f) (isGalaxyMode m)
             (galaxyTransition m) (magicTransition m) (handFactor m) active b in
  {| mode := m; burst := set_fireworks bs kept; bufs := b |}.

Definition handleClick (target : Vector3) (d : SpawnDraw) (e : Engine) : Engine :=
  let '(bs, b) := spawnFirework target d (burst e) (bufs e) in
  {| mode := mode e; burst := bs; bufs := b |}.

Definition step (e : Engine) (ev : Event) : Engine :=
  match ev with
  | Click target d => handleClick target d e
  | Animate f => animate f e
  end.

Definition run (evs : list Event) (e : Engine) : Engine := foldl step e evs.

End Run.

(** State after mounting: the cursor at the start of the reserve, no burst,
    lotus mode, buffers copied from the lotus data. *)
Definition initial (shapes : Shapes) (drift : buf) : Engine :=
  {| mode := {| magicModeDebounce := 0; isMagicMode := false; isGalaxyMode := false;
                galaxyTransition := 0; magicTransition := 0; handFactor := 0 |};
     burst := {| fireworkCursor := FIREWORK_PARTICLES_START; fireworks := [];
                 lastFireworkTime := 0 |};
     bufs := {| curr := lotusPos shapes; drifts := drift; cols := lotusCol shapes |} |}.

(** ** Lotus generator: which region writes which index *)

Module Lotus.

Inductive Region : Type :=
  | Unwritten
  | Pod
  | Petal (layer : nat)
  | Background.

Record Layer : Type := mkLayer {
  count : Z; off : Q; len : Q; wid : Q; tilt : Q; curve : Q; y : Q
}.

Definition layers : list Layer :=
  [ mkLayer 6 0.0 0.8 0.45 0.25 0.2 0.18;
    mkLayer 9 0.5 1.1 0.65 0.55 0.4 0.16;
    mkLayer 12 0.0 1.5 0.9 0.95 0.7 0.14;
    mkLayer 16 0.5 1.8 1.0 1.25 0.5 0.10;
    mkLayer 20 0.0 2.1 1.1 1.55 0.3 0.06 ].

Definition podCount : Z := 10000.

(** The generator's cursor [pIndex] and, per particle index, the region
    whose loop wrote its position and colour last. *)
Record Gen : Type := mkGen {
  pIndex : Z;
  region : Z -> Region
}.

Definition write (r : Region) (i : Z) (f : Z -> Region) : Z -> Region :=
  fun j => if j =? i then r else f j.

(** A write at [pIndex] followed by [pIndex++]. *)
Definition put (r : Region) (g : Gen) : Gen :=
  {| pIndex := pIndex g + 1; region := write r (pIndex g) (region g) |}.

(** [for (let i = 0; i < podCount; i++)] *)
Fixpoint pod_loop (n : nat) (g : Gen) : Gen :=
  match n with
  | O => g
  | S n' => pod_loop n' (put Pod g)
  end.

(** [for (let k = 0; k < partsPerPetal; k++) { if (pIndex >= FLOWER_COUNT) break; ... }] *)
Fixpoint petal_loop (k : nat) (l : nat) (g : Gen) : Gen :=
  match k with
  | O => g
  | S k' => if FLOWER_COUNT <=? pIndex g then g else petal_loop k' l (put (Petal l) g)
  end.

(** [for (let p = 0; p < layer.count; p++)] *)
Fixpoint layer_loop (p : nat) (partsPerPetal : nat) (l : nat) (g : Gen) : Gen :=
  match p with
  | O => g
  | S p' => layer_loop p' partsPerPetal l (petal_loop partsPerPetal l g)
  end.

(** [layers.forEach]: [l] is the position of the layer in [layers]. *)
Fixpoint layers_loop (particlesPerLayer : Z) (ls : list Layer) (l : nat) (g : Gen) : Gen :=
  match ls with
  | [] => g
  | layer :: rest =>
      let partsPerPetal := particlesPerLayer / count layer in
      layers_loop particlesPerLayer rest (S l)
        (layer_loop (Z.to_nat (count layer)) (Z.to_nat partsPerPetal) l g)
  end.

(** [for (let i = pIndex; i < PARTICLE_COUNT; i++)]: [pIndex] stays. *)
Definition background_loop (g : Gen) : Gen :=
  {| pIndex := pIndex g;
     region := foldl (fun f i => write Background i f) (region g)
                 (seqZ (pIndex g) (PARTICLE_COUNT - pIndex g)) |}.

(** The generator up to the end of the petals, and the whole of it. *)
Definition flower_part : Gen :=
  let g := pod_loop (Z.to_nat podCount) {| pIndex := 0; region := fun _ => Unwritten |} in
  let totalPetalParticles := FLOWER_COUNT - pIndex g in
  let particlesPerLayer := totalPetalParticles / Z.of_nat (length layers) in
  layers_loop particlesPerLayer layers 0 g.

Definition generateLotus : Gen := background_loop flower_part.

End Lotus.

(** ** Pointer raycast on binary64 floats *)

Module Raycast.

Local Open Scope float_scope.

Record Vector3 : Type := mkVector3 { x : float; y : float; z : float }.
Record Ray : Type := mkRay { origin : Vector3; direction : Vector3 }.
Record Plane : Type := mkPlane { normal : Vector3; constant : float }.

(** [planeRef]: [new THREE.Plane(new THREE.Vector3(0, 0, 1), 0)]. *)
Definition planeZ0 : Plane := mkPlane (mkVector3 0 0 1) 0.

Definition dot (a b : Vector3) : float := x a * x b + y a * y b + z a * z b.

Definition distanceToPoint (p : Plane) (pt : Vector3) : float := dot (normal p) pt + constant p.

(** Modelled from the spec: [THREE.Ray] is three.js library code and is not
    among the sources.  [distanceToPlane] gives the ray parameter of the
    intersection, or nothing when the ray is parallel to the plane off it
    or points away from it. *)
Definition distanceToPlane (r : Ray) (p : Plane) : option float :=
  let denominator := dot (normal p) (direction r) in
  if denominator =? 0 then
    if distanceToPoint p (origin r) =? 0 then Some 0 else None
  else
    let t := - (dot (origin r) (normal p) + constant p) / denominator in
    if 0 <=? t then Some t else None.

(** Modelled from the spec: [Ray.at(t, target)], the point [origin + direction * t]. *)
Definition at_ (r : Ray) (t : float) : Vector3 :=
  mkVector3 (x (origin r) + x (direction r) * t)
            (y (origin r) + y (direction r) * t)
            (z (origin r) + z (direction r) * t).

(** Modelled from the spec: [Ray.intersectPlane(plane, target)].  It returns
    [null] and leaves [target] as it was when there is no intersection, and
    otherwise stores the point into [target] and returns it.  The pair is the
    returned value and [target] afterwards. *)
Definition intersectPlane (r : Ray) (p : Plane) (target : Vector3) : option Vector3 * Vector3 :=
  match distanceToPlane r p with
  | None => (None, target)
  | Some t => (Some (at_ r t), at_ r t)
  end.

(** [animate], "4. Update Mouse Position in 3D": the ray is intersected into
    [mouseWorldPosRef.current]; the returned value is dropped. *)
Definition update_mouseWorldPos (r : Ray) (mouseWorldPos : Vector3) : Vector3 :=
  snd (intersectPlane r planeZ0 mouseWorldPos).

(** [handleClick]: a fresh [new THREE.Vector3()] is the target, the returned
    value is dropped, and [if (target)] holds for every object, so the burst
    is always spawned, at [target]. *)
Definition click_target (r : Ray) : Vector3 :=
  let target := mkVector3 0 0 0 in
  snd (intersectPlane r planeZ0 target).

Definition no_nan3 (v : Vector3) : bool :=
  negb (is_nan (x v)) && negb (is_nan (y v)) && negb (is_nan (z v)).

(** The ray is parallel to the plane and does not lie in it. *)
Definition no_intersection (r : Ray) (p : Plane) : Prop :=
  (dot (normal p) (direction r) =? 0) = true /\
  (distanceToPoint p (origin r) =? 0) = false.

End Raycast.

(** ** Notions used to state the properties *)

(** The mode part of the sensor block and of an event: the mode machine
    reads nothing of the bursts or the buffers. *)
Definition right_hand_mode (h : Hands) (m : Mode) : Mode :=
  match rightHand h with
  | Some rh =>
      if isMagicMode m then m
      else set_handFactor m
             (handFactor m + (bloom_target (pinchDist rh) - handFactor m) * 0.2)%Q
  | None => set_handFactor m (handFactor m + (0 - handFactor m) * 0.05)%Q
  end.

Definition sensor_mode (h : Hands) (m : Mode) : Mode :=
  galaxy_step h (right_hand_mode h (debounce_step (magicGestureDetected h) m)).

Definition mode_event (m : Mode) (ev : Event) : Mode :=
  match ev with
  | Click _ _ => m
  | Animate f =>
      transition_step (match video f with Some h => sensor_mode h m | None => m end)
  end.

(** Frames of a run: the calls of [animate]. *)
Definition is_frame (ev : Event) : bool :=
  match ev with Animate _ => true | Click _ _ => false end.

Definition frames (evs : list Event) : nat := length (filter is_frame evs).

(** Frames the debounce counter needs at least before the Magic flag can
    change: down to 1 when it is set, up to 7 when it is not. *)
Definition flip_distance (m : Mode) : Z :=
  if isMagicMode m then magicModeDebounce m - 1 else 7 - magicModeDebounce m.

(** The ranges of the smoothed outputs. *)
Definition weights_in_range (m : Mode) : Prop :=
  (0 <= galaxyTransition m <= 1 /\ 0 <= magicTransition m <= 1)%Q.

Definition bloom_in_range (hi : Q) (m : Mode) : Prop := (0 <= handFactor m <= hi)%Q.

(** ** Concrete inputs used in the examples *)

Definition zero_buf : buf := fun _ => 0%Q.

Definition flat_shapes : Shapes :=
  {| lotusPos := zero_buf; galPos := zero_buf; magPos := zero_buf;
     lotusCol := zero_buf; galCol := zero_buf; magCol := zero_buf |}.

Definition zero_fn : Q -> Q := fun _ => 0%Q.

Definition white_draw : SpawnDraw :=
  {| draw_id := 0; draw_color := mkColor 1 1 1; draw_velocity := fun _ => mkVector3 0 0 0 |}.

Definition still_env (t : Q) : FrameEnv :=
  {| timeNow := t; random := fun _ _ => 0.5%Q; mouse := mkVector3 9999 9999 9999 |}.

(** A frame whose video shows the given hands. *)
Definition frame_with (t : Q) (h : Hands) : Frame :=
  {| env := still_env t; video := Some h; draw := white_draw |}.

(** Both hands in the magic pose; both hands apart and relaxed; only the
    right hand, wide open (thumb and index 0.35 apart); only the right hand,
    pinching (thumb and index 0.02 apart). *)
Definition magic_hands : Hands :=
  {| rightHand := Some (mkRightHand 0.1 0.5 0.5); leftHand := true;
     magicPose := true; palmsMerged := false |}.

Definition relaxed_hands : Hands :=
  {| rightHand := Some (mkRightHand 0.1 0.5 0.5); leftHand := true;
     magicPose := false; palmsMerged := false |}.

Definition open_hand : Hands :=
  {| rightHand := Some (mkRightHand 0.35 0.5 0.5); leftHand := false;
     magicPose := false; palmsMerged := false |}.

Definition pinching_hand : Hands :=
  {| rightHand := Some (mkRightHand 0.02 0.5 0.5); leftHand := false;
     magicPose := false; palmsMerged := false |}.

Definition start : Engine := initial flat_shapes zero_buf.

(** Equality of vectors up to the value of their rational components. *)
Definition veq (a b : Vector3) : Prop :=
  (vx a == vx b /\ vy a == vy b /\ vz a == vz b)%Q.

(** Shape buffers with different targets for particle 0: lotus (1,1,1),
    galaxy (5,5,5), magic (3,4,0) on the outer ring.  At time 0 every spin
    angle is 0; [one_fn] and [zero_fn] are the cosine and sine there, and
    [sqrt25] is the square root at 25. *)
Definition demo_shapes : Shapes :=
  {| lotusPos := fun _ => 1%Q; galPos := fun _ => 5%Q;
     magPos := fun j => if j =? 0 then 3%Q else if j =? 1 then 4%Q else 0%Q;
     lotusCol := zero_buf; galCol := zero_buf; magCol := zero_buf |}.

Definition one_fn : Q -> Q := fun _ => 1%Q.

Definition sqrt25 : Q -> Q := fun q => if Qeq_bool q 25 then 5%Q else 0%Q.

(** [covers r lo n g g']: from [g] to [g'] the cursor went from [lo] up by
    [n], the indices [lo .. lo + n - 1] were written by region [r], and no
    other index was written. *)
Definition covers (r : Lotus.Region) (n : Z) (g g' : Lotus.Gen) : Prop :=
  Lotus.pIndex g' = Lotus.pIndex g + n /\
  forall j, Lotus.region g' j =
            if (Lotus.pIndex g <=? j) && (j <? Lotus.pIndex g + n) then r
            else Lotus.region g j.

(** A layout is a list of consecutive blocks (region, size) from index 0;
    [block_region] reads the region of an index off it. *)
Fixpoint block_region (blocks : list (Lotus.Region * Z)) (j : Z) : Lotus.Region :=
  match blocks with
  | [] => Lotus.Unwritten
  | (r, n) :: rest => if j <? n then r else block_region rest (j - n)
  end.

Definition block_total (blocks : list (Lotus.Region * Z)) : Z :=
  foldr (fun b acc => snd b + acc) 0 blocks.

(** The pod, the five petal layers, and the background. *)
Definition lotus_flower_blocks : list (Lotus.Region * Z) :=
  [ (Lotus.Pod, 10000); (Lotus.Petal 0, 27996); (Lotus.Petal 1, 27999);
    (Lotus.Petal 2, 27996); (Lotus.Petal 3, 28000); (Lotus.Petal 4, 28000) ].

Definition lotus_blocks : list (Lotus.Region * Z) :=
  lotus_flower_blocks ++ [ (Lotus.Background, 30009) ].

(** The sparks [spawnFirework] builds from the allocated indices: each
    takes a head and then up to [TRAIL_LEN] trail indices. *)
Fixpoint chunk_sparks (k : nat) (rest : list Z) : list Spark :=
  match k with
  | O => []
  | S k' =>
      match rest with
      | [] => []
      | h :: rest1 => mkSpark h (take TRAIL_LEN rest1) :: chunk_sparks k' (drop TRAIL_LEN rest1)
      end
  end.

(** The burst part of [spawnFirework], of the frame update, and of an event
    (the mode [m] is the one the event starts from). *)
Definition spawn_burst (d : SpawnDraw) (bs : Burst) : Burst :=
  let '(indices, cursor) := allocateParticles (fireworkCursor bs) totalNeeded in
  {| fireworkCursor := cursor;
     fireworks := fireworks bs
                  ++ [mkFirework (draw_id d) 0 (draw_color d) (chunk_sparks SPARK_CNT indices)];
     lastFireworkTime := lastFireworkTime bs |}.

Definition age_out (fws : list Firework) : list Firework :=
  filter (fun fw => age fw < LIFETIME) (aged <$> fws).

Definition pinch_spawns (t : Q) (h : Hands) (m : Mode) (bs : Burst) : bool :=
  match rightHand h with
  | Some rh =>
      negb (isMagicMode m) && (Qltb (pinchDist rh) 0.04 && Qltb 250 (t - lastFireworkTime bs))
  | None => false
  end.

Definition burst_sensor (t : Q) (h : Hands) (d : SpawnDraw) (m : Mode) (bs : Burst) : Burst :=
  if pinch_spawns t h (debounce_step (magicGestureDetected h) m) bs then
    spawn_burst d {| fireworkCursor := fireworkCursor bs; fireworks := fireworks bs;
                     lastFireworkTime := t |}
  else bs.

(** The bursts as the frame update finds them: after the sensor block. *)
Definition burst_sensed (f : Frame) (m : Mode) (bs : Burst) : Burst :=
  match video f with
  | Some h => burst_sensor (timeNow (env f)) h (draw f) m bs
  | None => bs
  end.

Definition burst_event (m : Mode) (bs : Burst) (ev : Event) : Burst :=
  match ev with
  | Click _ d => spawn_burst d bs
  | Animate f =>
      let bs := burst_sensed f m bs in set_fireworks bs (age_out (fireworks bs))
  end.

Definition control_event (c : Mode * Burst) (ev : Event) : Mode * Burst :=
  (mode_event (fst c) ev, burst_event (fst c) (snd c) ev).

(** Slots one spawn takes, as an integer. *)
Definition PER_SPAWN : Z := Z.of_nat totalNeeded.

(** Most fireworks the ring holds without overlap. *)
Definition MAX_LIVE : nat := Z.to_nat (RING_SIZE / PER_SPAWN).

(** [older a b]: [a] is at least as old as [b]. *)
Definition older (a b : Firework) : Prop := age b <= age a.

(** The fireworks, newest first, lie on the ring one after the other behind
    the cursor [c], in the order they were handed out. *)
Fixpoint layout (c : Z) (newest_first : list Firework) : Prop :=
  match newest_first with
  | [] => True
  | fw :: rest =>
      firework_indices fw = (ring_at (ring_at c (- PER_SPAWN)) <$> seqZ 0 PER_SPAWN) /\
      layout (ring_at c (- PER_SPAWN)) rest
  end.

(** What every run keeps true of the bursts. *)
Definition burst_inv (bs : Burst) : Prop :=
  in_ring (fireworkCursor bs) /\
  layout (fireworkCursor bs) (reverse (fireworks bs)) /\
  StronglySorted older (fireworks bs) /\
  Forall (fun fw => 0 <= age fw < LIFETIME) (fireworks bs).

(** An event that shows no hands to the sensor block: a click, or a frame
    without a new video frame. *)
Definition quiet (ev : Event) : Prop :=
  match ev with
  | Click _ _ => True
  | Animate f => video f = None
  end.

(** A frame without a new video frame, and a click at the origin. *)
Definition still_frame : Frame :=
  {| env := still_env 0; video := None; draw := white_draw |}.

Definition idle_frame : Event := Animate still_frame.

Definition click_origin : Event := Click (mkVector3 0 0 0) white_draw.

(** The firework a spawn builds when the cursor is at [c]. *)
Definition burst_at (c : Z) : Firework :=
  mkFirework 0 0 (mkColor 1 1 1)
    (chunk_sparks SPARK_CNT (fst (allocateParticles c totalNeeded))).

(** A firework [n] frame updates later. *)
Definition grown (n : nat) (fw : Firework) : Firework :=
  {| fw_id := fw_id fw; age := age fw + Z.of_nat n; color := color fw; sparks := sparks fw |}.

(** The phases of a frame, named: the fireworks alive at the frame's
    update, the buffers and the active set the update leaves, and the
    buffers after the particle pass. *)
Definition frame_live (f : Frame) (e : Engine) : list Firework :=
  fireworks (fst (snd (sense f e))).

Definition frame_start (f : Frame) (e : Engine) : Buffers := snd (snd (sense f e)).

Definition frame_bursts (f : Frame) (e : Engine) : Buffers :=
  fst (snd (update_fireworks (frame_live f e) (frame_start f e, ∅))).

Definition frame_active (f : Frame) (e : Engine) : gset Z :=
  snd (snd (update_fireworks (frame_live f e) (frame_start f e, ∅))).










(** * Properties *)

(** ** The allocator *)

Example alloc_wraps :
  allocateParticles 179998 4 = ([179998; 179999; 150000; 150001], 150002).
Proof. reflexivity. Qed.

Section AllocatorFacts.

Ltac ring_consts :=
  unfold in_ring, ring_at, RING_SIZE, PARTICLE_COUNT, FIREWORK_PARTICLES_START,
    FLOWER_COUNT, BG_COUNT in *;
  change (150000 + 30000 - 150000) with 30000 in *;
  change (150000 + 30000) with 180000 in *.

Lemma ring_at_in_ring c m : in_ring (ring_at c m).
Proof.
  ring_consts. pose proof (Z.mod_pos_bound (c - 150000 + m) 30000 eq_refl). lia.
Qed.

Lemma ring_at_0 c : in_ring c -> ring_at c 0 = c.
Proof.
  intros H. ring_consts. rewrite Z.add_0_r, Z.mod_small by lia. lia.
Qed.

Lemma ring_at_add c m k : ring_at (ring_at c m) k = ring_at c (m + k).
Proof.
  ring_consts. f_equal.
  replace (150000 + (c - 150000 + m) mod 30000 - 150000 + k)
    with ((c - 150000 + m) mod 30000 + k) by lia.
  rewrite Zplus_mod_idemp_l. f_equal. lia.
Qed.

Lemma ring_step p :
  in_ring p ->
  (if PARTICLE_COUNT <=? p + 1 then FIREWORK_PARTICLES_START else p + 1) = ring_at p 1.
Proof.
  intros H. ring_consts.
  destruct (Z.leb_spec 180000 (p + 1)).
  - assert (p = 179999) by lia. subst p. reflexivity.
  - rewrite Z.mod_small by lia. lia.
Qed.

Lemma alloc_loop_spec n : forall c acc,
  in_ring c ->
  alloc_loop n c acc = (acc ++ (ring_at c <$> seqZ 0 (Z.of_nat n)), ring_at c (Z.of_nat n)).
Proof.
  induction n as [|n IH]; intros c acc Hc.
  - simpl. rewrite app_nil_r, ring_at_0 by done. done.
  - cbn [alloc_loop]. rewrite ring_step by done.
    rewrite IH by apply ring_at_in_ring.
    rewrite Nat2Z.inj_succ, <- Z.add_1_l, ring_at_add.
    f_equal. rewrite <- app_assoc. f_equal.
    rewrite (seqZ_cons 0 (1 + Z.of_nat n)) by lia.
    rewrite fmap_cons, ring_at_0 by done. cbn [app]. f_equal.
    replace (Z.pred (1 + Z.of_nat n)) with (Z.of_nat n) by lia.
    replace (Z.succ 0) with (1 + 0) by lia.
    rewrite <- (fmap_add_seqZ 1 0), <- list_fmap_compose.
    apply list_fmap_ext. intros i x _. simpl. apply ring_at_add.
Qed.

Lemma allocateParticles_spec c n :
  in_ring c ->
  allocateParticles c n = (ring_at c <$> seqZ 0 (Z.of_nat n), ring_at c (Z.of_nat n)).
Proof. intros H. unfold allocateParticles. by rewrite alloc_loop_spec. Qed.

End AllocatorFacts.

(** ** The mode machine *)

Section ModeFacts.

Variables sin cos sqrt : Q -> Q.
Variable shapes : Shapes.

Lemma right_hand_step_mode t h d m bs b :
  fst (right_hand_step t h d m bs b) = right_hand_mode h m.
Proof.
  unfold right_hand_step, right_hand_mode.
  destruct (rightHand h); [destruct (isMagicMode m)|]; reflexivity.
Qed.

Lemma sensor_step_mode t h d m bs b :
  fst (sensor_step t h d m bs b) = sensor_mode h m.
Proof.
  unfold sensor_step, sensor_mode.
  pose proof (right_hand_step_mode t h d (debounce_step (magicGestureDetected h) m) bs b) as H.
  destruct (right_hand_step _ _ _ _ _ _) as [m' sb]. simpl in *. by subst.
Qed.

Lemma mode_step e ev :
  mode (step sin cos sqrt shapes e ev) = mode_event (mode e) ev.
Proof.
  destruct ev as [target d|f]; unfold step, mode_event.
  - unfold handleClick. by destruct (spawnFirework _ _ _ _).
  - unfold animate, sense. destruct (video f) as [h|].
    + pose proof (sensor_step_mode (timeNow (env f)) h (draw f) (mode e) (burst e) (bufs e)) as H.
      destruct (sensor_step _ _ _ _ _ _) as [m' [bs b]]. cbn [fst] in H. subst m'.
      destruct (update_fireworks _ _) as [kept [b' active]]. reflexivity.
    + destruct (update_fireworks _ _) as [kept [b' active]]. reflexivity.
Qed.

Lemma mode_run evs : forall e,
  mode (run sin cos sqrt shapes evs e) = foldl mode_event (mode e) evs.
Proof.
  induction evs as [|ev evs IH]; intros e; [reflexivity|].
  unfold run in *. cbn [foldl]. rewrite IH, mode_step. reflexivity.
Qed.

End ModeFacts.

Section Debounce.

Local Ltac mode_cases :=
  repeat match goal with
  | |- context [if ?b then _ else _] => destruct b eqn:?
  | H : context [if ?b then _ else _] |- _ => destruct b eqn:?
  end; simpl in *.

Lemma sensor_mode_magic h m :
  isMagicMode (sensor_mode h m) = isMagicMode (debounce_step (magicGestureDetected h) m) /\
  magicModeDebounce (sensor_mode h m)
    = magicModeDebounce (debounce_step (magicGestureDetected h) m).
Proof.
  unfold sensor_mode, galaxy_step, right_hand_mode.
  destruct (rightHand h); mode_cases; done.
Qed.

Lemma debounce_distance det m :
  Z.min 6 (flip_distance m - 1) <= flip_distance (debounce_step det m).
Proof.
  unfold flip_distance, debounce_step.
  destruct det, (isMagicMode m); mode_cases; lia.
Qed.

Lemma debounce_flip det m :
  isMagicMode (debounce_step det m) <> isMagicMode m ->
  flip_distance m <= 1 /\ 6 <= flip_distance (debounce_step det m).
Proof.
  unfold flip_distance, debounce_step.
  destruct det, (isMagicMode m); mode_cases; intros; try congruence; lia.
Qed.

Lemma flip_distance_sensor h m :
  flip_distance (sensor_mode h m)
    = flip_distance (debounce_step (magicGestureDetected h) m).
Proof.
  unfold flip_distance. destruct (sensor_mode_magic h m) as [-> ->]. done.
Qed.

Lemma flip_distance_transition m : flip_distance (transition_step m) = flip_distance m.
Proof. done. Qed.

Lemma mode_event_distance m ev :
  Z.min 6 (flip_distance m - (if is_frame ev then 1 else 0))
    <= flip_distance (mode_event m ev).
Proof.
  destruct ev as [t d|f]; cbn [mode_event is_frame]; [lia|].
  rewrite flip_distance_transition. destruct (video f) as [h|]; [|lia].
  rewrite flip_distance_sensor. apply debounce_distance.
Qed.

Lemma mode_event_flip m ev :
  isMagicMode (mode_event m ev) <> isMagicMode m ->
  is_frame ev = true /\ flip_distance m <= 1 /\ 6 <= flip_distance (mode_event m ev).
Proof.
  destruct ev as [t d|f]; cbn [mode_event is_frame]; [done|].
  rewrite flip_distance_transition.
  change (isMagicMode (transition_step ?x)) with (isMagicMode x).
  destruct (video f) as [h|]; [|done].
  rewrite flip_distance_sensor. destruct (sensor_mode_magic h m) as [-> _].
  intros H. split; [done|]. by apply debounce_flip.
Qed.

Lemma frames_cons ev evs :
  frames (ev :: evs) = ((if is_frame ev then 1 else 0) + frames evs)%nat.
Proof. unfold frames. cbn [filter list_filter]. by destruct ev. Qed.

Lemma frames_app evs1 evs2 : frames (evs1 ++ evs2) = (frames evs1 + frames evs2)%nat.
Proof. unfold frames. by rewrite filter_app, length_app. Qed.

Lemma run_distance evs : forall m,
  Z.min 6 (flip_distance m) - Z.of_nat (frames evs)
    <= flip_distance (foldl mode_event m evs).
Proof.
  induction evs as [|ev evs IH]; intros m.
  - cbn. lia.
  - cbn [foldl]. rewrite frames_cons. specialize (IH (mode_event m ev)).
    pose proof (mode_event_distance m ev). destruct (is_frame ev); lia.
Qed.

(** Between two changes of the Magic flag, the second one included, there
    are at least six frames. *)
Lemma mode_flips_six_apart m ev1 mid ev2 :
  let m1 := mode_event m ev1 in
  let m2 := foldl mode_event m1 mid in
  isMagicMode m1 <> isMagicMode m ->
  isMagicMode (mode_event m2 ev2) <> isMagicMode m2 ->
  (6 <= frames (mid ++ [ev2]))%nat.
Proof.
  intros m1 m2 H1 H2.
  apply mode_event_flip in H1 as (_ & _ & Hhi).
  apply mode_event_flip in H2 as (Hf & Hlo & _).
  pose proof (run_distance mid m1). fold m1 in Hhi. fold m2 in H.
  rewrite frames_app, frames_cons, Hf. cbn. lia.
Qed.

End Debounce.

(** C7: whatever the gestures of each frame are, two changes of the Magic
    flag (entering when the debounce counter exceeds 6, leaving when it
    drops below 2, the counter moving one step per processed frame inside
    0..10) are at least four frames apart: the second change falls on the
    fourth frame after the first at the earliest. *)
Theorem C7_magic_transitions_four_frames_apart
    (sin cos sqrt : Q -> Q) (shapes : Shapes) (e : Engine)
    (ev1 : Event) (mid : list Event) (ev2 : Event) :
  let e1 := step sin cos sqrt shapes e ev1 in
  let e2 := run sin cos sqrt shapes mid e1 in
  isMagicMode (mode e1) <> isMagicMode (mode e) ->
  isMagicMode (mode (step sin cos sqrt shapes e2 ev2)) <> isMagicMode (mode e2) ->
  (4 <= frames (mid ++ [ev2]))%nat.
Proof.
  intros e1 e2 H1 H2. subst e1 e2.
  rewrite mode_step in H1. rewrite mode_step, mode_run, mode_step in H2.
  pose proof (mode_flips_six_apart (mode e) ev1 mid ev2 H1 H2). lia.
Qed.

(** Seven magic frames enter Magic mode on the seventh; six relaxed frames
    then leave it on the sixth. *)
Lemma C7_witness :
  let magic := Animate (frame_with 0 magic_hands) in
  let relaxed := Animate (frame_with 0 relaxed_hands) in
  (4 <= frames (repeat relaxed 5 ++ [relaxed]))%nat.
Proof.
  intros magic relaxed.
  apply (C7_magic_transitions_four_frames_apart zero_fn zero_fn zero_fn flat_shapes
           (run zero_fn zero_fn zero_fn flat_shapes (repeat magic 6) start) magic).
  - rewrite !mode_step, !mode_run. lazy. discriminate.
  - rewrite !mode_step, !mode_run, !mode_step, !mode_run. lazy. discriminate.
Defined.

(** ** Ranges of the smoothed outputs *)

Section Ranges.

Lemma bloom_target_range dist : (0 <= bloom_target dist <= 2.5)%Q.
Proof.
  unfold bloom_target. split.
  - apply Q.le_max_l.
  - apply Q.max_lub; [lra|]. apply Q.le_min_l.
Qed.

Lemma right_hand_mode_range h m :
  bloom_in_range 2.5 m -> bloom_in_range 2.5 (right_hand_mode h m).
Proof.
  unfold bloom_in_range, right_hand_mode. intros Hm.
  destruct (rightHand h) as [rh|]; [destruct (isMagicMode m)|]; cbn [handFactor set_handFactor].
  - done.
  - pose proof (bloom_target_range (pinchDist rh)). lra.
  - lra.
Qed.

Lemma sensor_mode_range h m :
  bloom_in_range 2.5 m -> bloom_in_range 2.5 (sensor_mode h m).
Proof.
  intros Hm. unfold sensor_mode.
  assert (bloom_in_range 2.5 (debounce_step (magicGestureDetected h) m)) as Hd.
  { unfold debounce_step, bloom_in_range in *.
    repeat match goal with |- context [if ?b then _ else _] => destruct b end; done. }
  apply (right_hand_mode_range h) in Hd. revert Hd.
  unfold galaxy_step, bloom_in_range.
  repeat match goal with |- context [if ?b then _ else _] => destruct b end; done.
Qed.

Lemma sensor_mode_weights h m :
  galaxyTransition (sensor_mode h m) = galaxyTransition m /\
  magicTransition (sensor_mode h m) = magicTransition m.
Proof.
  unfold sensor_mode, galaxy_step, right_hand_mode, debounce_step.
  destruct (rightHand h);
    repeat match goal with |- context [if ?b then _ else _] => destruct b end; done.
Qed.

Lemma transition_step_weights m : weights_in_range m -> weights_in_range (transition_step m).
Proof.
  unfold weights_in_range, transition_step. cbn [galaxyTransition magicTransition].
  intros [Hg Hm]. destruct (isGalaxyMode m), (isMagicMode m); lra.
Qed.

Lemma mode_event_ranges m ev :
  weights_in_range m /\ bloom_in_range 2.5 m ->
  weights_in_range (mode_event m ev) /\ bloom_in_range 2.5 (mode_event m ev).
Proof.
  intros [Hw Hb]. destruct ev as [t d|f]; cbn [mode_event]; [done|].
  destruct (video f) as [h|].
  - split.
    + apply transition_step_weights. unfold weights_in_range.
      destruct (sensor_mode_weights h m) as [-> ->]. done.
    + apply (sensor_mode_range h) in Hb. done.
  - split; [by apply transition_step_weights | done].
Qed.

Lemma run_ranges evs : forall m,
  weights_in_range m /\ bloom_in_range 2.5 m ->
  weights_in_range (foldl mode_event m evs) /\ bloom_in_range 2.5 (foldl mode_event m evs).
Proof.
  induction evs as [|ev evs IH]; intros m H; [done|].
  cbn [foldl]. by apply IH, mode_event_ranges.
Qed.

End Ranges.

(** C9 (amended): for every sequence of clicks and frames, whatever the
    gestures are, the two blend weights stay within [0,1] and the bloom
    factor stays within [0, 2.5], the clamp of its target. *)
Theorem C9_weights_and_bloom_bounded
    (sin cos sqrt : Q -> Q) (shapes : Shapes) (drift : buf) (evs : list Event) :
  let m := mode (run sin cos sqrt shapes evs (initial shapes drift)) in
  (0 <= galaxyTransition m <= 1 /\ 0 <= magicTransition m <= 1 /\
   0 <= handFactor m <= 2.5)%Q.
Proof.
  intros m. subst m. rewrite mode_run.
  destruct (run_ranges evs (mode (initial shapes drift))) as [[Hg Hm] Hb].
  - unfold weights_in_range, bloom_in_range. cbn. lra.
  - done.
Qed.

(** Ten frames of a wide-open right hand take the bloom factor above 2,
    outside [0, 1.5]. *)
Lemma C9_counterexample :
  let m := mode (run zero_fn zero_fn zero_fn flat_shapes
                   (repeat (Animate (frame_with 0 open_hand)) 10) start) in
  (2 < handFactor m)%Q /\ ~ (0 <= handFactor m <= 1.5)%Q.
Proof.
  intros m. subst m. rewrite mode_run.
  assert (2 < handFactor (foldl mode_event (mode start)
                            (repeat (Animate (frame_with 0 open_hand)) 10)))%Q as H.
  { vm_compute. reflexivity. }
  split; [exact H | lra].
Qed.

(** ** Blend order of the integrator *)

Section BlendFacts.

Variables sin cos sqrt : Q -> Q.
Variable shapes : Shapes.
Variable env : FrameEnv.


Lemma Qltb_true a b : (a < b)%Q -> Qltb a b = true.
Proof.
  intros H. unfold Qltb. destruct (Qle_bool b a) eqn:E; [|done].
  apply Qle_bool_iff in E. lra.
Qed.


Lemma lerp_zero a b t : (t == 0)%Q -> (lerp a b t == a)%Q.
Proof. intros H. unfold lerp. rewrite H. ring. Qed.



End BlendFacts.



(** ** The pointer raycast *)

(** C10: when the pointer ray is parallel to the Z = 0 plane and off it,
    so that no intersection exists, the hover update leaves the world point
    held in [mouseWorldPosRef] exactly as it was, hence free of NaN when it
    was, and the point a click hands to [spawnFirework] is the fresh vector
    (0,0,0), free of NaN as well. *)
Theorem C10_parallel_ray_keeps_world_point (r : Raycast.Ray) (held : Raycast.Vector3) :
  Raycast.no_intersection r Raycast.planeZ0 ->
  Raycast.update_mouseWorldPos r held = held /\
  (Raycast.no_nan3 held = true ->
   Raycast.no_nan3 (Raycast.update_mouseWorldPos r held) = true) /\
  Raycast.click_target r = Raycast.mkVector3 0 0 0 /\
  Raycast.no_nan3 (Raycast.click_target r) = true.
Proof.
  intros [Hpar Hoff].
  assert (Raycast.distanceToPlane r Raycast.planeZ0 = None) as Hnone.
  { unfold Raycast.distanceToPlane. by rewrite Hpar, Hoff. }
  assert (forall t, snd (Raycast.intersectPlane r Raycast.planeZ0 t) = t) as Hkeep.
  { intros t. unfold Raycast.intersectPlane. by rewrite Hnone. }
  unfold Raycast.update_mouseWorldPos, Raycast.click_target.
  rewrite !Hkeep. repeat split; auto.
Qed.

(** A ray from (0, 2, 3.5) along the x axis never meets the plane, and
    the initial point (9999, 9999, 9999) is kept. *)
Lemma C10_witness :
  let r := Raycast.mkRay (Raycast.mkVector3 0 2 3.5) (Raycast.mkVector3 1 0 0) in
  let held := Raycast.mkVector3 9999 9999 9999 in
  Raycast.update_mouseWorldPos r held = held /\
  (Raycast.no_nan3 held = true ->
   Raycast.no_nan3 (Raycast.update_mouseWorldPos r held) = true) /\
  Raycast.click_target r = Raycast.mkVector3 0 0 0 /\
  Raycast.no_nan3 (Raycast.click_target r) = true.
Proof.
  intros r held. apply (C10_parallel_ray_keeps_world_point r held).
  split; vm_compute; reflexivity.
Defined.

(** A ray that does meet the plane moves the point onto it. *)
Example raycast_hit :
  Raycast.update_mouseWorldPos
    (Raycast.mkRay (Raycast.mkVector3 0 0 2) (Raycast.mkVector3 0 0 (-1)))
    (Raycast.mkVector3 9999 9999 9999)
  = Raycast.mkVector3 0 0 0.
Proof. vm_compute. reflexivity. Qed.

(** ** Regions of the lotus generator *)

Section LotusFacts.

Import Lotus.

Lemma covers_refl r g : covers r 0 g g.
Proof.
  split; [lia|]. intros j.
  destruct (Z.leb_spec (pIndex g) j), (Z.ltb_spec j (pIndex g + 0)); simpl; done || lia.
Qed.

Lemma covers_trans r n m g1 g2 g3 :
  0 <= n -> 0 <= m ->
  covers r n g1 g2 -> covers r m g2 g3 -> covers r (n + m) g1 g3.
Proof.
  intros Hn Hm [Hp1 Hr1] [Hp2 Hr2]. split; [lia|].
  intros j. rewrite Hr2, Hr1, Hp1.
  destruct (Z.leb_spec (pIndex g1 + n) j), (Z.ltb_spec j (pIndex g1 + n + m)),
    (Z.leb_spec (pIndex g1) j), (Z.ltb_spec j (pIndex g1 + n)),
    (Z.ltb_spec j (pIndex g1 + (n + m))); simpl; done || lia.
Qed.

Lemma covers_put r g : covers r 1 g (put r g).
Proof.
  split; [done|]. intros j. cbn [put region pIndex]. unfold write.
  destruct (Z.eqb_spec j (pIndex g)), (Z.leb_spec (pIndex g) j),
    (Z.ltb_spec j (pIndex g + 1)); simpl; done || lia.
Qed.

Lemma pod_loop_covers n : forall g, covers Pod (Z.of_nat n) g (pod_loop n g).
Proof.
  induction n as [|n IH]; intros g.
  - apply covers_refl.
  - cbn [pod_loop]. replace (Z.of_nat (S n)) with (1 + Z.of_nat n) by lia.
    eapply covers_trans; [lia | lia | apply covers_put | apply IH].
Qed.

Lemma petal_loop_covers l k : forall g,
  pIndex g + Z.of_nat k <= FLOWER_COUNT ->
  covers (Petal l) (Z.of_nat k) g (petal_loop k l g).
Proof.
  induction k as [|k IH]; intros g Hg.
  - apply covers_refl.
  - cbn [petal_loop]. destruct (Z.leb_spec FLOWER_COUNT (pIndex g)); [lia|].
    replace (Z.of_nat (S k)) with (1 + Z.of_nat k) by lia.
    eapply covers_trans; [lia | lia | apply covers_put | apply IH].
    cbn [put pIndex]. lia.
Qed.

Lemma layer_loop_covers l parts p : forall g,
  pIndex g + Z.of_nat p * Z.of_nat parts <= FLOWER_COUNT ->
  covers (Petal l) (Z.of_nat p * Z.of_nat parts) g (layer_loop p parts l g).
Proof.
  induction p as [|p IH]; intros g Hg.
  - apply covers_refl.
  - cbn [layer_loop].
    replace (Z.of_nat (S p) * Z.of_nat parts)
      with (Z.of_nat parts + Z.of_nat p * Z.of_nat parts) in * by lia.
    assert (covers (Petal l) (Z.of_nat parts) g (petal_loop parts l g)) as Hc
      by (apply petal_loop_covers; nia).
    eapply covers_trans; [lia | nia | exact Hc | apply IH].
    destruct Hc as [-> _]. lia.
Qed.

Lemma background_writes (f : Z -> Region) n : forall lo j,
  foldl (fun f i => write Background i f) f (seqZ lo (Z.of_nat n)) j
  = if (lo <=? j) && (j <? lo + Z.of_nat n) then Background else f j.
Proof.
  revert f. induction n as [|n IH]; intros f lo j.
  - change (Z.of_nat 0) with 0. change (seqZ lo 0) with (@nil Z). cbn [foldl].
    destruct (Z.leb_spec lo j), (Z.ltb_spec j (lo + 0)); simpl; done || lia.
  - rewrite seqZ_cons by lia. cbn [foldl].
    replace (Z.pred (Z.of_nat (S n))) with (Z.of_nat n) by lia.
    rewrite IH. unfold write.
    destruct (Z.leb_spec (Z.succ lo) j), (Z.ltb_spec j (Z.succ lo + Z.of_nat n)),
      (Z.leb_spec lo j), (Z.ltb_spec j (lo + Z.of_nat (S n))), (Z.eqb_spec j lo);
      simpl; done || lia.
Qed.

Lemma background_loop_region g j :
  pIndex g <= PARTICLE_COUNT ->
  region (background_loop g) j
  = if (pIndex g <=? j) && (j <? PARTICLE_COUNT) then Background else region g j.
Proof.
  intros H. unfold background_loop. cbn [region].
  rewrite <- (Z2Nat.id (PARTICLE_COUNT - pIndex g)) by lia.
  rewrite background_writes. rewrite Z2Nat.id by lia.
  by replace (pIndex g + (PARTICLE_COUNT - pIndex g)) with PARTICLE_COUNT by lia.
Qed.

Lemma layer_covers l c ppl g :
  0 < c -> 0 <= ppl ->
  pIndex g + c * (ppl / c) <= FLOWER_COUNT ->
  covers (Petal l) (c * (ppl / c)) g
    (layer_loop (Z.to_nat c) (Z.to_nat (ppl / c)) l g).
Proof.
  intros Hc Hp Hg.
  assert (0 <= ppl / c) by (apply Z.div_pos; lia).
  pose proof (layer_loop_covers l (Z.to_nat (ppl / c)) (Z.to_nat c) g) as H1.
  rewrite !Z2Nat.id in H1 by lia. by apply H1.
Qed.

Lemma layers_loop_cons ppl layer rest l g :
  layers_loop ppl (layer :: rest) l g
  = layers_loop ppl rest (S l)
      (layer_loop (Z.to_nat (count layer)) (Z.to_nat (ppl / count layer)) l g).
Proof. reflexivity. Qed.

(** The state after the pod and after each petal layer. *)
Lemma flower_part_covers :
  exists g1 g2 g3 g4 g5,
    covers Pod 10000 {| pIndex := 0; region := fun _ => Unwritten |} g1 /\
    covers (Petal 0) 27996 g1 g2 /\ covers (Petal 1) 27999 g2 g3 /\
    covers (Petal 2) 27996 g3 g4 /\ covers (Petal 3) 28000 g4 g5 /\
    covers (Petal 4) 28000 g5 flower_part.
Proof.
  unfold flower_part.
  generalize (pod_loop_covers (Z.to_nat podCount) {| pIndex := 0; region := fun _ => Unwritten |}).
  generalize (pod_loop (Z.to_nat podCount) {| pIndex := 0; region := fun _ => Unwritten |}).
  intros g1 H1. rewrite (Z2Nat.id podCount) in H1 by done.
  assert (pIndex g1 = 10000) as P1 by (destruct H1 as [-> _]; reflexivity).
  rewrite P1.
  replace ((FLOWER_COUNT - 10000) / Z.of_nat (length layers)) with 28000 by reflexivity.
  unfold layers. rewrite !layers_loop_cons. cbn [layers_loop count].
  pose proof (layer_covers 0 6 28000 g1) as H2.
  generalize dependent (layer_loop (Z.to_nat 6) (Z.to_nat (28000 / 6)) 0 g1).
  intros g2 H2. specialize (H2 eq_refl ltac:(done) ltac:(rewrite P1; done)).
  assert (pIndex g2 = 37996) as P2 by (destruct H2 as [-> _]; rewrite P1; reflexivity).
  pose proof (layer_covers 1 9 28000 g2) as H3.
  generalize dependent (layer_loop (Z.to_nat 9) (Z.to_nat (28000 / 9)) 1 g2).
  intros g3 H3. specialize (H3 eq_refl ltac:(done) ltac:(rewrite P2; done)).
  assert (pIndex g3 = 65995) as P3 by (destruct H3 as [-> _]; rewrite P2; reflexivity).
  pose proof (layer_covers 2 12 28000 g3) as H4.
  generalize dependent (layer_loop (Z.to_nat 12) (Z.to_nat (28000 / 12)) 2 g3).
  intros g4 H4. specialize (H4 eq_refl ltac:(done) ltac:(rewrite P3; done)).
  assert (pIndex g4 = 93991) as P4 by (destruct H4 as [-> _]; rewrite P3; reflexivity).
  pose proof (layer_covers 3 16 28000 g4) as H5.
  generalize dependent (layer_loop (Z.to_nat 16) (Z.to_nat (28000 / 16)) 3 g4).
  intros g5 H5. specialize (H5 eq_refl ltac:(done) ltac:(rewrite P4; done)).
  assert (pIndex g5 = 121991) as P5 by (destruct H5 as [-> _]; rewrite P4; reflexivity).
  pose proof (layer_covers 4 20 28000 g5 eq_refl ltac:(done) ltac:(rewrite P5; done)) as H6.
  exists g1, g2, g3, g4, g5. repeat split; first [apply H1|apply H2|apply H3|apply H4|apply H5|apply H6].
Qed.

Lemma flower_part_region :
  pIndex flower_part = 149991 /\
  forall j, 0 <= j -> region flower_part j = block_region lotus_flower_blocks j.
Proof.
  destruct flower_part_covers
    as (g1 & g2 & g3 & g4 & g5 & [P1 R1] & [P2 R2] & [P3 R3] & [P4 R4] & [P5 R5] & [P6 R6]).
  cbn [pIndex] in *. split; [lia|].
  intros j Hj. rewrite R6, R5, R4, R3, R2, R1. cbn [region block_region lotus_flower_blocks].
  rewrite P5, P4, P3, P2, P1.
  repeat match goal with
  | |- context [?a <=? ?b] => destruct (Z.leb_spec a b); try lia
  | |- context [?a <? ?b] => destruct (Z.ltb_spec a b); try lia
  end; simpl; done.
Qed.

End LotusFacts.

Lemma lotus_region_layout j :
  0 <= j -> Lotus.region Lotus.generateLotus j = block_region lotus_blocks j.
Proof.
  intros Hj. destruct flower_part_region as [P R]. unfold Lotus.generateLotus.
  rewrite background_loop_region by (rewrite P; done).
  rewrite R, P by done. cbn [block_region lotus_blocks lotus_flower_blocks app].
  change PARTICLE_COUNT with 180000.
  repeat match goal with
  | |- context [?a <=? ?b] => destruct (Z.leb_spec a b); try lia
  | |- context [?a <? ?b] => destruct (Z.ltb_spec a b); try lia
  end; simpl; done.
Qed.

(** The block sizes are the integer splits of the generator: each layer's
    share of 28000 rounded down to a whole number of particles per petal. *)
Example lotus_block_sizes :
  (fun layer => Lotus.count layer * (28000 / Lotus.count layer)) <$> Lotus.layers
  = [27996; 27999; 27996; 28000; 28000].
Proof. reflexivity. Qed.

(** C8 (amended): the pod (10000) and the five petal layers (27996, 27999,
    27996, 28000, 28000) cover exactly the indices below 149991, nine short
    of FLOWER_COUNT; the background loop starts where the petals stopped
    and takes the remainder, so the blocks sum to PARTICLE_COUNT and every
    index below PARTICLE_COUNT is written by the block it falls in. *)
Theorem C8_lotus_regions_cover_all_particles :
  Lotus.pIndex Lotus.flower_part = block_total lotus_flower_blocks /\
  block_total lotus_flower_blocks = FLOWER_COUNT - 9 /\
  block_total lotus_blocks = PARTICLE_COUNT /\
  forall j, 0 <= j -> Lotus.region Lotus.generateLotus j = block_region lotus_blocks j.
Proof.
  destruct flower_part_region as [P _].
  split; [by rewrite P|]. split; [reflexivity|]. split; [reflexivity|].
  apply lotus_region_layout.
Qed.

(** The petals stop at 149991, and that index, a flower index, is written
    by the background loop. *)
Lemma C8_counterexample :
  Lotus.pIndex Lotus.flower_part <> FLOWER_COUNT /\
  0 <= 149991 < FLOWER_COUNT /\
  Lotus.region Lotus.generateLotus 149991 = Lotus.Background.
Proof.
  destruct flower_part_region as [P _].
  split; [rewrite P; discriminate|].
  split; [unfold FLOWER_COUNT; lia|].
  rewrite lotus_region_layout by lia. reflexivity.
Qed.

(** ** Bursts: what a spawn and a frame do to the list of fireworks *)

Section BurstFacts.

Variables sin cos sqrt : Q -> Q.
Variable shapes : Shapes.

Lemma take_trail_spec t : forall rest, take_trail t rest = (take t rest, drop t rest).
Proof.
  induction t as [|t IH]; intros [|i rest]; try reflexivity.
  cbn [take_trail]. by rewrite IH.
Qed.

Lemma spawn_sparks_fst k : forall n position d rest acc b,
  fst (spawn_sparks k n position d rest acc b) = acc ++ chunk_sparks k rest.
Proof.
  induction k as [|k IH]; intros n position d rest acc b.
  - cbn. by rewrite app_nil_r.
  - destruct rest as [|h rest1]; cbn [spawn_sparks chunk_sparks].
    + by rewrite app_nil_r.
    + rewrite take_trail_spec, IH, <- app_assoc. reflexivity.
Qed.

Lemma spawnFirework_burst position d bs b :
  fst (spawnFirework position d bs b) = spawn_burst d bs.
Proof.
  unfold spawnFirework, spawn_burst.
  destruct (allocateParticles _ _) as [indices cursor].
  pose proof (spawn_sparks_fst SPARK_CNT 0 position d indices [] b) as H.
  destruct (spawn_sparks _ _ _ _ _ _ _) as [sp b']. cbn [fst] in *. by subst sp.
Qed.

Lemma update_fireworks_kept fws : forall st,
  fst (update_fireworks fws st) = age_out fws.
Proof.
  induction fws as [|fw fws IH]; intros st; [reflexivity|].
  cbn [update_fireworks].
  specialize (IH (foldl (update_spark (age (aged fw)) (color (aged fw))) st (sparks (aged fw)))).
  destruct (update_fireworks fws _) as [kept st']. cbn [fst] in *. subst kept.
  unfold age_out. rewrite fmap_cons, filter_cons.
  destruct (Z.ltb_spec (age (aged fw)) LIFETIME); destruct (decide _); done || lia.
Qed.

Lemma sensor_step_burst t h d m bs b :
  fst (snd (sensor_step t h d m bs b)) = burst_sensor t h d m bs.
Proof.
  unfold sensor_step, burst_sensor, pinch_spawns, right_hand_step.
  destruct (rightHand h) as [rh|]; [|reflexivity].
  destruct (isMagicMode (debounce_step (magicGestureDetected h) m)); [reflexivity|].
  cbn [negb andb].
  match goal with |- context [if ?c then _ else _] => destruct c end; cbn [fst snd].
  - by rewrite spawnFirework_burst.
  - reflexivity.
Qed.

Lemma burst_step e ev :
  burst (step sin cos sqrt shapes e ev) = burst_event (mode e) (burst e) ev.
Proof.
  destruct ev as [target d|f]; unfold step, burst_event.
  - unfold handleClick.
    pose proof (spawnFirework_burst target d (burst e) (bufs e)) as H.
    destruct (spawnFirework _ _ _ _) as [bs b]. exact H.
  - unfold animate, sense, burst_sensed. destruct (video f) as [h|].
    + pose proof (sensor_step_burst (timeNow (env f)) h (draw f) (mode e) (burst e) (bufs e)) as H.
      destruct (sensor_step _ _ _ _ _ _) as [m' [bs b]]. cbn [fst snd] in H. subst bs.
      pose proof (update_fireworks_kept
                    (fireworks (burst_sensor (timeNow (env f)) h (draw f) (mode e) (burst e)))
                    (b, ∅)) as H.
      destruct (update_fireworks _ _) as [kept [b' active]]. cbn [fst] in H. by subst kept.
    + pose proof (update_fireworks_kept (fireworks (burst e)) (bufs e, ∅)) as H.
      destruct (update_fireworks _ _) as [kept [b' active]]. cbn [fst] in H. by subst kept.
Qed.

Lemma control_run evs : forall e,
  (mode (run sin cos sqrt shapes evs e), burst (run sin cos sqrt shapes evs e))
  = foldl control_event (mode e, burst e) evs.
Proof.
  induction evs as [|ev evs IH]; intros e; [reflexivity|].
  unfold run in *. cbn [foldl]. rewrite IH. unfold control_event at 2. cbn [fst snd].
  by rewrite mode_step, burst_step.
Qed.

End BurstFacts.

(** ** Bursts: the ring layout kept by every run *)

Section RingLayout.

Variables sin cos sqrt : Q -> Q.
Variable shapes : Shapes.

Lemma chunk_sparks_indices k : forall rest,
  concat (spark_indices <$> chunk_sparks k rest) = take (k * S TRAIL_LEN) rest.
Proof.
  induction k as [|k IH]; intros [|h rest1]; try reflexivity.
  cbn [chunk_sparks fmap list_fmap concat spark_indices headIdx trailIndices].
  rewrite IH. cbn [Nat.mul Nat.add take app]. unfold spark_indices.
  cbn [headIdx trailIndices app]. f_equal. apply take_take_drop.
Qed.

Lemma chunk_sparks_shape k : forall rest,
  length rest = (k * S TRAIL_LEN)%nat ->
  length (chunk_sparks k rest) = k /\
  Forall (fun s => length (trailIndices s) = TRAIL_LEN) (chunk_sparks k rest).
Proof.
  induction k as [|k IH]; intros rest Hlen.
  - by destruct rest.
  - destruct rest as [|h rest1]; [done|]. cbn [chunk_sparks].
    cbn [length Nat.mul Nat.add] in Hlen.
    destruct (IH (drop TRAIL_LEN rest1)) as [H1 H2].
    { rewrite length_drop. unfold TRAIL_LEN in *. lia. }
    split; [cbn [length]; by rewrite H1|].
    constructor; [|done]. cbn [trailIndices]. rewrite length_take. unfold TRAIL_LEN in *. lia.
Qed.

Lemma spawn_burst_spec d bs :
  in_ring (fireworkCursor bs) ->
  exists fw,
    spawn_burst d bs =
      {| fireworkCursor := ring_at (fireworkCursor bs) PER_SPAWN;
         fireworks := fireworks bs ++ [fw];
         lastFireworkTime := lastFireworkTime bs |} /\
    age fw = 0 /\
    sparks fw = chunk_sparks SPARK_CNT (fst (allocateParticles (fireworkCursor bs) totalNeeded)) /\
    firework_indices fw = (ring_at (fireworkCursor bs) <$> seqZ 0 PER_SPAWN).
Proof.
  intros Hc. unfold spawn_burst. rewrite allocateParticles_spec by done.
  eexists. split; [reflexivity|]. split; [reflexivity|]. split; [reflexivity|].
  unfold firework_indices. cbn [sparks]. rewrite chunk_sparks_indices.
  apply take_ge. rewrite length_fmap, length_seqZ. reflexivity.
Qed.

Lemma layout_app_l l1 : forall c l2, layout c (l1 ++ l2) -> layout c l1.
Proof.
  induction l1 as [|fw l1 IH]; intros c l2; [done|].
  cbn [app layout]. intros [H1 H2]. eauto.
Qed.

Lemma layout_aged l : forall c, layout c (aged <$> l) <-> layout c l.
Proof.
  induction l as [|fw l IH]; intros c; [done|].
  cbn [fmap list_fmap layout]. by rewrite IH.
Qed.

Lemma sorted_filter_drop (l : list Firework) :
  StronglySorted older l ->
  exists n, filter (fun fw => age fw < LIFETIME) l = drop n l.
Proof.
  induction 1 as [|fw l Hs [n IH] Hfw].
  - by exists 0%nat.
  - rewrite filter_cons. destruct (decide (age fw < LIFETIME)) as [Hlt|Hge].
    + exists 0%nat. rewrite drop_0. f_equal.
      clear IH. induction l as [|g l IHl]; [done|].
      apply Forall_cons in Hfw as [Hg Hfw]. apply StronglySorted_cons in Hs as [? ?].
      rewrite filter_cons. unfold older in Hg.
      destruct (decide (age g < LIFETIME)); [|lia]. f_equal. by apply IHl.
    + exists (S n). exact IH.
Qed.

Lemma sorted_aged l : StronglySorted older l -> StronglySorted older (aged <$> l).
Proof.
  apply StronglySorted_fmap. intros a b. unfold older, aged. cbn [age]. lia.
Qed.

Lemma spawn_burst_inv d bs : burst_inv bs -> burst_inv (spawn_burst d bs).
Proof.
  intros (Hc & Hl & Hs & Ha).
  destruct (spawn_burst_spec d bs Hc) as (fw & -> & Hage & _ & Hidx).
  unfold burst_inv. cbn [fireworkCursor fireworks].
  assert (ring_at (ring_at (fireworkCursor bs) PER_SPAWN) (- PER_SPAWN) = fireworkCursor bs) as Hback.
  { rewrite ring_at_add, Z.add_opp_diag_r. by apply ring_at_0. }
  split; [apply ring_at_in_ring|]. split; [|split].
  - rewrite reverse_snoc. cbn [layout]. by rewrite Hback.
  - apply StronglySorted_app. split; [|split; [done|repeat constructor]].
    intros a b Ha' Hb. apply list_elem_of_singleton in Hb as ->.
    unfold older. rewrite Hage. apply (proj1 (Forall_forall _ _) Ha a Ha').
  - apply Forall_app. split; [done|]. constructor; [|constructor]. rewrite Hage. done.
Qed.

Lemma age_out_inv bs : burst_inv bs -> burst_inv (set_fireworks bs (age_out (fireworks bs))).
Proof.
  intros (Hc & Hl & Hs & Ha). unfold burst_inv, set_fireworks, age_out.
  cbn [fireworkCursor fireworks].
  destruct (sorted_filter_drop (aged <$> fireworks bs) (sorted_aged _ Hs)) as [n Hn].
  split; [done|]. split; [|split].
  - rewrite Hn.
    apply (layout_app_l _ _ (reverse (take n (aged <$> fireworks bs)))).
    rewrite <- reverse_app, take_drop, <- fmap_reverse. by apply layout_aged.
  - rewrite Hn. eapply StronglySorted_app_1_r. rewrite take_drop. by apply sorted_aged.
  - apply Forall_forall. intros fw Hfw.
    apply list_elem_of_filter in Hfw as [Hlt Hfw]. split; [|done].
    apply list_elem_of_fmap in Hfw as (g & -> & Hg).
    apply (proj1 (Forall_forall _ _) Ha) in Hg. cbn [aged age]. lia.
Qed.

Lemma burst_event_inv m bs ev : burst_inv bs -> burst_inv (burst_event m bs ev).
Proof.
  intros H. destruct ev as [t d|f]; cbn [burst_event].
  - by apply spawn_burst_inv.
  - apply age_out_inv. unfold burst_sensed. destruct (video f) as [h|]; [|done].
    unfold burst_sensor. destruct (pinch_spawns _ _ _ _); [|done].
    apply spawn_burst_inv. exact H.
Qed.

Lemma initial_inv drift : burst_inv (burst (initial shapes drift)).
Proof.
  unfold burst_inv. cbn. repeat split; try constructor; done.
Qed.

Lemma run_inv evs : forall e,
  burst_inv (burst e) -> burst_inv (burst (run sin cos sqrt shapes evs e)).
Proof.
  induction evs as [|ev evs IH]; intros e H; [done|].
  unfold run in *. cbn [foldl]. apply IH. rewrite burst_step. by apply burst_event_inv.
Qed.

End RingLayout.

(** ** Bursts: allocation inside the reserve, and disjoint arcs *)

Section Arcs.

Variables sin cos sqrt : Q -> Q.
Variable shapes : Shapes.

Lemma ring_at_succ c m :
  ring_at c (m + 1)
  = if PARTICLE_COUNT <=? ring_at c m + 1 then FIREWORK_PARTICLES_START else ring_at c m + 1.
Proof. rewrite <- ring_at_add. symmetry. apply ring_step, ring_at_in_ring. Qed.

Lemma ring_at_eq_close c a b :
  ring_at c a = ring_at c b -> 0 < a - b < RING_SIZE -> False.
Proof.
  unfold ring_at, RING_SIZE, PARTICLE_COUNT, FIREWORK_PARTICLES_START, FLOWER_COUNT, BG_COUNT.
  change (150000 + 30000 - 150000) with 30000. intros H Hab.
  pose proof (Z.div_mod (c - 150000 + a) 30000 ltac:(done)) as Ha.
  pose proof (Z.div_mod (c - 150000 + b) 30000 ltac:(done)) as Hb.
  assert ((c - 150000 + a) mod 30000 = (c - 150000 + b) mod 30000) as Hm by lia.
  rewrite Hm in Ha. lia.
Qed.

Lemma ring_arc_NoDup c : NoDup (ring_at c <$> seqZ 0 PER_SPAWN).
Proof.
  apply NoDup_fmap_2_strong; [|apply NoDup_seqZ].
  intros a b Ha Hb Heq. apply elem_of_seqZ in Ha, Hb.
  change PER_SPAWN with 650 in *.
  destruct (Z.lt_trichotomy a b) as [Hlt|[->|Hgt]]; [|done|].
  - exfalso. apply (ring_at_eq_close c b a); [done|]. change RING_SIZE with 30000. lia.
  - exfalso. apply (ring_at_eq_close c a b); [done|]. change RING_SIZE with 30000. lia.
Qed.

Lemma layout_lookup l : forall c k fw,
  layout c l -> l !! k = Some fw ->
  firework_indices fw
  = ((fun m => ring_at c (m - (Z.of_nat k + 1) * PER_SPAWN)) <$> seqZ 0 PER_SPAWN).
Proof.
  induction l as [|g l IH]; intros c k fw Hl Hk; [done|].
  destruct Hl as [Hg Hl]. destruct k as [|k]; cbn in Hk.
  - injection Hk as ->. rewrite Hg. apply list_fmap_ext. intros _ m _.
    rewrite ring_at_add. f_equal. lia.
  - rewrite (IH _ _ _ Hl Hk). apply list_fmap_ext. intros _ m _.
    rewrite ring_at_add. f_equal. lia.
Qed.

Lemma layout_disjoint c l i j fi fj x :
  layout c l -> (length l <= MAX_LIVE)%nat -> (i < j)%nat ->
  l !! i = Some fi -> l !! j = Some fj ->
  x ∈ firework_indices fi -> x ∈ firework_indices fj -> False.
Proof.
  intros Hl Hlen Hij Hi Hj Hxi Hxj.
  apply lookup_lt_Some in Hj as Hjlt.
  rewrite (layout_lookup l c i fi Hl Hi) in Hxi.
  rewrite (layout_lookup l c j fj Hl Hj) in Hxj.
  apply list_elem_of_fmap in Hxi as (m1 & -> & H1).
  apply list_elem_of_fmap in Hxj as (m2 & Heq & H2).
  apply elem_of_seqZ in H1, H2.
  change MAX_LIVE with 46%nat in Hlen. change PER_SPAWN with 650 in *.
  apply (ring_at_eq_close _ _ _ Heq). change RING_SIZE with 30000. lia.
Qed.

Lemma inv_disjoint bs i j fi fj x :
  burst_inv bs -> (length (fireworks bs) <= MAX_LIVE)%nat -> i <> j ->
  fireworks bs !! i = Some fi -> fireworks bs !! j = Some fj ->
  x ∈ firework_indices fi -> x ∈ firework_indices fj -> False.
Proof.
  intros (_ & Hl & _ & _) Hlen Hij Hi Hj Hxi Hxj.
  apply lookup_lt_Some in Hi as Hilt. apply lookup_lt_Some in Hj as Hjlt.
  set (n := length (fireworks bs)) in *.
  assert (reverse (fireworks bs) !! (n - S i)%nat = Some fi) as Ri.
  { apply reverse_lookup_Some. split; [|lia].
    by replace (length (fireworks bs) - S (n - S i))%nat with i by (unfold n; lia). }
  assert (reverse (fireworks bs) !! (n - S j)%nat = Some fj) as Rj.
  { apply reverse_lookup_Some. split; [|lia].
    by replace (length (fireworks bs) - S (n - S j))%nat with j by (unfold n; lia). }
  assert (length (reverse (fireworks bs)) <= MAX_LIVE)%nat as Hlen'
    by (by rewrite length_reverse).
  destruct (decide (i < j)%nat).
  - apply (layout_disjoint _ _ (n - S j) (n - S i) fj fi x Hl Hlen'); [lia|done..].
  - apply (layout_disjoint _ _ (n - S i) (n - S j) fi fj x Hl Hlen'); [lia|done..].
Qed.


End Arcs.

Section BurstRuns.

Variables sin cos sqrt : Q -> Q.
Variable shapes : Shapes.

Lemma burst_run evs e :
  burst (run sin cos sqrt shapes evs e) = snd (foldl control_event (mode e, burst e) evs).
Proof. by rewrite <- (control_run sin cos sqrt shapes). Qed.

Lemma burst_event_quiet m m' bs ev : quiet ev -> burst_event m bs ev = burst_event m' bs ev.
Proof.
  destruct ev as [t d|f]; cbn [quiet burst_event]; [reflexivity|].
  unfold burst_sensed. intros ->. reflexivity.
Qed.

Lemma burst_run_quiet m0 evs : forall e,
  Forall quiet evs ->
  burst (run sin cos sqrt shapes evs e) = foldl (burst_event m0) (burst e) evs.
Proof.
  induction evs as [|ev evs IH]; intros e H; [done|].
  apply Forall_cons in H as [Hq H]. unfold run in *. cbn [foldl].
  rewrite IH, burst_step by done. f_equal. by apply burst_event_quiet.
Qed.

Lemma reachable_inv drift evs :
  burst_inv (burst (run sin cos sqrt shapes evs (initial shapes drift))).
Proof. apply run_inv, initial_inv. Qed.

End BurstRuns.

(** C4: in every state a run reaches, a call of [spawnFirework] takes
    exactly 650 = 50 * (1 + 12) indices from the ring allocator, split into
    50 sparks of one head and 12 trail indices; they are the slots the
    cursor passes, advancing by one and wrapping from PARTICLE_COUNT back to
    FIREWORK_PARTICLES_START, so each lies in
    [FIREWORK_PARTICLES_START, PARTICLE_COUNT) and none in [0, FLOWER_COUNT). *)
Theorem C4_spawn_allocates_in_reserve
    (sin cos sqrt : Q -> Q) (shapes : Shapes) (drift : buf) (evs : list Event)
    (position : Vector3) (d : SpawnDraw) :
  let e := run sin cos sqrt shapes evs (initial shapes drift) in
  let c := fireworkCursor (burst e) in
  let bs' := fst (spawnFirework position d (burst e) (bufs e)) in
  exists fw,
    fireworks bs' = fireworks (burst e) ++ [fw] /\
    firework_indices fw = fst (allocateParticles c totalNeeded) /\
    firework_indices fw = (ring_at c <$> seqZ 0 650) /\
    (forall m, ring_at c (m + 1)
               = if PARTICLE_COUNT <=? ring_at c m + 1 then FIREWORK_PARTICLES_START
                 else ring_at c m + 1) /\
    length (firework_indices fw) = 650%nat /\
    length (sparks fw) = 50%nat /\
    Forall (fun s => length (trailIndices s) = 12%nat) (sparks fw) /\
    (forall x, x ∈ firework_indices fw ->
               FIREWORK_PARTICLES_START <= x < PARTICLE_COUNT /\ ~ (0 <= x < FLOWER_COUNT)) /\
    fireworkCursor bs' = ring_at c 650 /\
    FIREWORK_PARTICLES_START <= fireworkCursor bs' < PARTICLE_COUNT.
Proof.
  intros e c bs'. subst bs'. rewrite spawnFirework_burst.
  destruct (reachable_inv sin cos sqrt shapes drift evs) as (Hc & _). fold e in Hc. fold c in Hc.
  destruct (spawn_burst_spec d (burst e) Hc) as (fw & -> & Hage & Hsp & Hidx). fold c in Hidx, Hsp.
  exists fw. cbn [fireworks fireworkCursor].
  assert (length (fst (allocateParticles c totalNeeded)) = (SPARK_CNT * S TRAIL_LEN)%nat) as Hlen.
  { rewrite allocateParticles_spec by done. cbn [fst]. by rewrite length_fmap, length_seqZ. }
  destruct (chunk_sparks_shape SPARK_CNT _ Hlen) as [Hn Htr]. rewrite <- Hsp in Hn, Htr.
  split; [done|]. split; [by rewrite allocateParticles_spec|]. split; [done|].
  split; [apply ring_at_succ|]. split; [by rewrite Hidx, length_fmap, length_seqZ|].
  split; [done|]. split; [done|]. split; [|split; [done|apply ring_at_in_ring]].
  intros x Hx. rewrite Hidx in Hx. apply list_elem_of_fmap in Hx as (m & -> & _).
  pose proof (ring_at_in_ring c m) as H. unfold in_ring in H.
  split; [done|]. unfold FIREWORK_PARTICLES_START in H. lia.
Qed.

(** The first spawn of a session takes the indices 150000 .. 150649. *)
Example first_spawn_indices :
  firework_indices (burst_at 150000) = seqZ 150000 650 /\
  snd (allocateParticles 150000 totalNeeded) = 150650.
Proof. split; vm_compute; reflexivity. Qed.

(** C3 (amended): in every state a run of clicks and frames reaches with at
    most 46 live fireworks (46 * 650 <= 30000, the size of the ring), two
    different live fireworks own no particle index in common. *)
Theorem C3_live_fireworks_disjoint
    (sin cos sqrt : Q -> Q) (shapes : Shapes) (drift : buf) (evs : list Event)
    (i j : nat) (fi fj : Firework) (x : Z) :
  let bs := burst (run sin cos sqrt shapes evs (initial shapes drift)) in
  (length (fireworks bs) <= 46)%nat ->
  i <> j ->
  fireworks bs !! i = Some fi ->
  fireworks bs !! j = Some fj ->
  x ∈ firework_indices fi ->
  x ∉ firework_indices fj.
Proof.
  intros bs Hlen Hij Hi Hj Hxi Hxj.
  exact (inv_disjoint bs i j fi fj x (reachable_inv sin cos sqrt shapes drift evs)
           Hlen Hij Hi Hj Hxi Hxj).
Qed.

(** After two clicks the second firework does not own index 150000, which
    the first one owns. *)
Lemma C3_witness : 150000 ∉ firework_indices (burst_at 150650).
Proof.
  apply (C3_live_fireworks_disjoint zero_fn zero_fn zero_fn flat_shapes zero_buf
           [click_origin; click_origin] 0 1 (burst_at 150000) (burst_at 150650) 150000).
  - rewrite burst_run. vm_compute. lia.
  - lia.
  - rewrite burst_run. vm_compute. reflexivity.
  - rewrite burst_run. vm_compute. reflexivity.
  - apply (bool_decide_unpack _). vm_compute. exact I.
Defined.

(** Forty-seven clicks in a row: all forty-seven fireworks are alive, and
    the last one owns index 150000, which the first one owns as well. *)
Lemma C3_counterexample :
  let bs := burst (run zero_fn zero_fn zero_fn flat_shapes (repeat click_origin 47) start) in
  exists fi fj,
    fireworks bs !! 0%nat = Some fi /\ fireworks bs !! 46%nat = Some fj /\
    150000 ∈ firework_indices fi /\ 150000 ∈ firework_indices fj.
Proof.
  intros bs. subst bs. rewrite burst_run.
  exists (burst_at 150000), (burst_at 179900).
  split; [vm_compute; reflexivity|]. split; [vm_compute; reflexivity|].
  split; apply (bool_decide_unpack _); vm_compute; exact I.
Qed.

(** ** Bursts: ageing and expiry *)

Section Expiry.

Variables sin cos sqrt : Q -> Q.
Variable shapes : Shapes.

Lemma animate_fireworks f e :
  fireworks (burst (animate sin cos sqrt shapes f e))
  = age_out (fireworks (burst_sensed f (mode e) (burst e))).
Proof.
  change (animate sin cos sqrt shapes f e) with (step sin cos sqrt shapes e (Animate f)).
  rewrite burst_step. reflexivity.
Qed.

Lemma burst_sensed_inv f m bs : burst_inv bs -> burst_inv (burst_sensed f m bs).
Proof.
  intros H. unfold burst_sensed. destruct (video f) as [h|]; [|done].
  unfold burst_sensor. destruct (pinch_spawns _ _ _ _); [|done].
  apply spawn_burst_inv. exact H.
Qed.

Lemma age_out_grown n : forall fws,
  age_out (filter (fun fw => age fw < LIFETIME) (grown n <$> fws))
  = filter (fun fw => age fw < LIFETIME) (grown (S n) <$> fws).
Proof.
  induction fws as [|fw fws IH]; [done|].
  unfold age_out in *. rewrite !fmap_cons, !filter_cons.
  assert (aged (grown n fw) = grown (S n) fw) as Hag.
  { unfold aged, grown. cbn [age fw_id color sparks]. f_equal. lia. }
  destruct (decide (age (grown n fw) < LIFETIME)) as [H1|H1];
    destruct (decide (age (grown (S n) fw) < LIFETIME)) as [H2|H2].
  - rewrite fmap_cons, filter_cons, Hag. destruct (decide _); [|done]. by rewrite IH.
  - rewrite fmap_cons, filter_cons, Hag. destruct (decide _); [done|]. by rewrite IH.
  - cbn [grown age] in *. lia.
  - exact IH.
Qed.

Lemma grown_0 (fws : list Firework) : grown 0 <$> fws = fws.
Proof.
  induction fws as [|[i a c sp] fws IH]; [done|].
  rewrite fmap_cons, IH. unfold grown. cbn [age fw_id color sparks]. by rewrite Z.add_0_r.
Qed.

Lemma filter_all (fws : list Firework) :
  Forall (fun fw => 0 <= age fw < LIFETIME) fws ->
  filter (fun fw => age fw < LIFETIME) fws = fws.
Proof.
  induction 1 as [|fw fws [_ H] _ IH]; [done|].
  rewrite filter_cons. destruct (decide _); [|done]. by rewrite IH.
Qed.

Lemma idle_frames_age m0 n : forall bs,
  Forall (fun fw => 0 <= age fw < LIFETIME) (fireworks bs) ->
  fireworks (foldl (burst_event m0) bs (repeat idle_frame n))
  = filter (fun fw => age fw < LIFETIME) (grown n <$> fireworks bs).
Proof.
  induction n as [|n IH]; intros bs Hbs.
  - cbn [repeat foldl]. by rewrite grown_0, filter_all.
  - replace (S n) with (n + 1)%nat at 1 by lia.
    rewrite repeat_app, foldl_app. cbn [repeat foldl].
    change (burst_event m0 ?b idle_frame) with (set_fireworks b (age_out (fireworks b))).
    cbn [set_fireworks fireworks]. rewrite IH by done. apply age_out_grown.
Qed.

Lemma ring_reaches c x :
  in_ring c -> in_ring x ->
  exists k, 0 <= k < 47 /\
    x ∈ fst (allocateParticles (ring_at c (k * PER_SPAWN)) totalNeeded).
Proof.
  intros Hc Hx.
  set (o := (x - c) mod RING_SIZE).
  assert (0 <= o < 30000) as Ho by (apply (Z.mod_pos_bound _ 30000); done).
  assert (ring_at c o = x) as Hox.
  { unfold ring_at, o. rewrite Zplus_mod_idemp_r.
    replace (c - FIREWORK_PARTICLES_START + (x - c)) with (x - FIREWORK_PARTICLES_START) by lia.
    unfold in_ring in Hx. rewrite Z.mod_small; [lia|].
    unfold RING_SIZE. lia. }
  exists (o / 650). split.
  - split; [apply Z.div_pos; lia|]. apply Z.div_lt_upper_bound; lia.
  - rewrite allocateParticles_spec by apply ring_at_in_ring. cbn [fst].
    apply list_elem_of_fmap. exists (o mod 650). split.
    + rewrite ring_at_add, <- Hox. f_equal. change PER_SPAWN with 650.
      pose proof (Z.div_mod o 650 ltac:(done)). lia.
    + apply elem_of_seqZ. pose proof (Z.mod_pos_bound o 650 ltac:(done)).
      change (Z.of_nat totalNeeded) with 650. lia.
Qed.

End Expiry.

(** C5 (amended): in every state a run reaches, the frame update adds
    exactly 1 to the age of every live firework and keeps a firework only
    while its age is below 90: ages stay within 0..89, a firework is removed
    by the update that brings its age to 90, so after [n] frames it is alive
    iff its age plus [n] is below 90.  When at most 46 fireworks are alive
    at that update, none of the indices of a removed firework remain in any
    live firework; and the allocator, which keeps no record of owners, hands
    every index of the ring out again within its next 47 spawns. *)
Theorem C5_fireworks_age_and_expire
    (sin cos sqrt : Q -> Q) (shapes : Shapes) (drift : buf) (evs : list Event) (f : Frame) :
  let e := run sin cos sqrt shapes evs (initial shapes drift) in
  let live := fireworks (burst_sensed f (mode e) (burst e)) in
  let e' := animate sin cos sqrt shapes f e in
  Forall (fun fw => 0 <= age fw < 90) live /\
  fireworks (burst e') = filter (fun fw => age fw < 90) (aged <$> live) /\
  (forall n, fireworks (burst (run sin cos sqrt shapes (repeat idle_frame n) e))
             = filter (fun fw => age fw < 90) (grown n <$> fireworks (burst e))) /\
  ((length live <= 46)%nat ->
   forall fw x fw', fw ∈ live -> age fw + 1 = 90 -> x ∈ firework_indices fw ->
                    fw' ∈ fireworks (burst e') -> x ∉ firework_indices fw') /\
  (forall x, FIREWORK_PARTICLES_START <= x < PARTICLE_COUNT ->
             exists k, 0 <= k < 47 /\
               x ∈ fst (allocateParticles (ring_at (fireworkCursor (burst e')) (k * 650))
                          totalNeeded)).
Proof.
  intros e live e'.
  pose proof (reachable_inv sin cos sqrt shapes drift evs) as He. fold e in He.
  pose proof (burst_sensed_inv f (mode e) _ He) as Hlive.
  assert (fireworks (burst e') = age_out live) as He' by apply animate_fireworks.
  split; [apply Hlive|]. split; [exact He'|]. split; [|split].
  - intros n. rewrite (burst_run_quiet sin cos sqrt shapes (mode e)).
    + apply idle_frames_age, He.
    + apply Forall_forall. intros ev Hev. by apply list_elem_of_In, repeat_spec in Hev as ->.
  - intros Hlen fw x fw' Hfw Hage Hx Hfw' Hx'. rewrite He' in Hfw'.
    apply list_elem_of_filter in Hfw' as [Hlt Hfw'].
    apply list_elem_of_fmap in Hfw' as (g & -> & Hg).
    apply list_elem_of_lookup in Hfw as [i Hi]. apply list_elem_of_lookup in Hg as [j Hj].
    assert (i <> j) as Hij.
    { intros ->. rewrite Hi in Hj. injection Hj as ->. cbn [aged age] in Hlt.
      unfold LIFETIME in Hlt. lia. }
    exact (inv_disjoint _ i j fw g x Hlive Hlen Hij Hi Hj Hx Hx').
  - intros x Hx. apply (ring_reaches (fireworkCursor (burst e')) x); [|exact Hx].
    assert (burst_inv (burst e')) as (Hc & _); [|exact Hc].
    change e' with (step sin cos sqrt shapes e (Animate f)).
    rewrite burst_step. by apply burst_event_inv.
Qed.

Lemma quiet_repeat ev n : quiet ev -> Forall quiet (repeat ev n).
Proof.
  intros H. apply Forall_forall. intros ev' Hev.
  by apply list_elem_of_In, repeat_spec in Hev as ->.
Qed.

(** A click and ninety frames: after 89 frames the firework is alive with
    age 89; the ninetieth update removes it although its age, 90, does not
    exceed 90.  And with 47 fireworks alive, the oldest one expires while
    the newest one, still alive, keeps owning index 150000 of the expired. *)
Lemma C5_counterexample :
  let burst_after evs := burst (run zero_fn zero_fn zero_fn flat_shapes evs start) in
  let crowd := click_origin :: idle_frame :: repeat click_origin 46 ++ repeat idle_frame 88 in
  (exists fw,
     fireworks (burst_after (click_origin :: repeat idle_frame 89)) = [fw] /\
     age fw = 89 /\ ~ (90 < age (aged fw)) /\
     fireworks (burst_after (click_origin :: repeat idle_frame 90)) = []) /\
  (exists fw fw',
     fireworks (burst_after crowd) !! 0%nat = Some fw /\ age fw = 89 /\
     length (fireworks (burst_after crowd)) = 47%nat /\
     150000 ∈ firework_indices fw /\
     length (fireworks (burst_after (crowd ++ [idle_frame]))) = 46%nat /\
     fireworks (burst_after (crowd ++ [idle_frame])) !! 45%nat = Some fw' /\
     150000 ∈ firework_indices fw').
Proof.
  intros burst_after crowd.
  assert (quiet click_origin) as Hc by exact I.
  assert (quiet idle_frame) as Hi by reflexivity.
  assert (forall evs, Forall quiet evs ->
            burst_after evs = foldl (burst_event (mode start)) (burst start) evs) as Hrun
    by (intros evs Hq; apply burst_run_quiet, Hq).
  assert (Forall quiet crowd) as Hcrowd.
  { apply Forall_cons_2; [done|]. apply Forall_cons_2; [done|].
    apply Forall_app; split; by apply quiet_repeat. }
  rewrite !Hrun
    by first [ apply Forall_cons_2; [done | by apply quiet_repeat]
             | apply Forall_app; split; [done | by repeat constructor]
             | done ].
  clear Hrun Hcrowd. subst burst_after crowd.
  split.
  - exists (grown 89 (burst_at 150000)).
    split; [vm_compute; reflexivity|]. split; [reflexivity|].
    split; [vm_compute; discriminate|]. vm_compute; reflexivity.
  - exists (grown 89 (burst_at 150000)), (grown 89 (burst_at 179900)).
    split; [vm_compute; reflexivity|]. split; [reflexivity|].
    split; [vm_compute; reflexivity|].
    split; [apply (bool_decide_unpack _); vm_compute; exact I|].
    split; [vm_compute; reflexivity|]. split; [vm_compute; reflexivity|].
    apply (bool_decide_unpack _); vm_compute; exact I.
Qed.

(** ** The particle pass leaves active indices alone *)

Section SteadyPass.

Variables sin cos sqrt : Q -> Q.
Variable shapes : Shapes.

Lemma animate_bufs f e :
  bufs (animate sin cos sqrt shapes f e)
  = let m := transition_step (fst (sense f e)) in
    steady_pass sin cos sqrt shapes (env f) (isGalaxyMode m) (galaxyTransition m)
      (magicTransition m) (handFactor m) (frame_active f e) (frame_bursts f e).
Proof.
  unfold animate, frame_active, frame_bursts, frame_live, frame_start.
  destruct (sense f e) as [m [bs b]]. cbn [fst snd].
  destruct (update_fireworks (fireworks bs) (b, ∅)) as [kept [b' active]]. reflexivity.
Qed.

Lemma update_spark_active a c b act s x :
  x ∈ snd (update_spark a c (b, act) s) <-> x ∈ act \/ x ∈ spark_indices s.
Proof.
  assert (snd (update_spark a c (b, act) s)
          = foldl (fun a ti => {[ ti ]} ∪ a) ({[ headIdx s ]} ∪ act) (trailIndices s)) as ->.
  { reflexivity. }
  unfold spark_indices. generalize (headIdx s). intros h.
  assert (forall l (a0 : gset Z),
            x ∈ foldl (fun a ti => {[ ti ]} ∪ a) a0 l <-> x ∈ a0 \/ x ∈ l) as H.
  { induction l as [|t l IH]; intros a0; cbn [foldl].
    - set_solver.
    - rewrite IH. set_solver. }
  rewrite H. set_solver.
Qed.

Lemma sparks_active a c l : forall st x,
  x ∈ snd (foldl (update_spark a c) st l)
  <-> x ∈ snd st \/ exists s, s ∈ l /\ x ∈ spark_indices s.
Proof.
  induction l as [|s l IH]; intros [b act] x; cbn [foldl].
  - set_solver.
  - rewrite IH. destruct (update_spark a c (b, act) s) as [b' act'] eqn:E.
    assert (forall y, y ∈ act' <-> y ∈ act \/ y ∈ spark_indices s) as H.
    { intros y. rewrite <- (update_spark_active a c b act s y). by rewrite E. }
    cbn [snd]. rewrite H. set_solver.
Qed.

Lemma elem_of_concat (x : Z) (ls : list (list Z)) :
  x ∈ concat ls <-> exists l, x ∈ l /\ l ∈ ls.
Proof.
  induction ls as [|l ls IH]; cbn [concat].
  - set_solver.
  - rewrite elem_of_app, IH. setoid_rewrite elem_of_cons. naive_solver.
Qed.

Lemma firework_indices_elem fw x :
  x ∈ firework_indices fw <-> exists s, s ∈ sparks fw /\ x ∈ spark_indices s.
Proof.
  unfold firework_indices. rewrite elem_of_concat. split.
  - intros (l & Hx & Hl). apply list_elem_of_fmap in Hl as (s & -> & Hs). eauto.
  - intros (s & Hs & Hx). exists (spark_indices s). split; [done|].
    by apply list_elem_of_fmap_2.
Qed.

Lemma update_fireworks_active fws : forall st x,
  x ∈ snd (snd (update_fireworks fws st))
  <-> x ∈ snd st \/ exists fw, fw ∈ fws /\ x ∈ firework_indices fw.
Proof.
  induction fws as [|fw fws IH]; intros st x; cbn [update_fireworks].
  - cbn [snd]. set_solver.
  - specialize (IH (foldl (update_spark (age (aged fw)) (color (aged fw))) st (sparks (aged fw))) x).
    destruct (update_fireworks fws _) as [kept st']. cbn [snd] in *.
    rewrite IH, sparks_active. cbn [aged sparks]. split.
    + intros [[H|(s & Hs & Hx)]|(g & Hg & Hx)].
      * by left.
      * right. exists fw. split; [apply elem_of_cons; by left|].
        apply firework_indices_elem. eauto.
      * right. exists g. split; [apply elem_of_cons; by right|done].
    + intros [H|(g & Hg & Hx)]; [by left; left|].
      apply elem_of_cons in Hg as [->|Hg].
      * left. right. by apply firework_indices_elem.
      * right. eauto.
Qed.

Lemma bset_other (b : buf) i v k : k <> i -> bset b i v k = b k.
Proof. intros H. unfold bset. by destruct (Z.eqb_spec k i). Qed.

Lemma bset_same (b : buf) i v : bset b i v i = v.
Proof. unfold bset. by rewrite Z.eqb_refl. Qed.

Lemma steady_particle_other env isGalaxy gT mT bloomFactor i b k :
  ~ (i * 3 <= k < i * 3 + 3) ->
  curr (steady_particle sin cos sqrt shapes env isGalaxy gT mT bloomFactor i b) k = curr b k /\
  cols (steady_particle sin cos sqrt shapes env isGalaxy gT mT bloomFactor i b) k = cols b k.
Proof.
  intros Hk. unfold steady_particle.
  match goal with |- context [if ?c then _ else _] => destruct c end;
    cbn [curr cols]; rewrite !bset_other by lia; done.
Qed.


Lemma steady_fold_skips env isGalaxy gT mT bloomFactor (active : gset Z) x k l : forall b,
  x ∈ active -> x * 3 <= k < x * 3 + 3 ->
  let b' := foldl (steady_step sin cos sqrt shapes env isGalaxy gT mT bloomFactor active) b l in
  curr b' k = curr b k /\ cols b' k = cols b k.
Proof.
  induction l as [|i l IH]; intros b Hx Hk; [done|].
  cbn [foldl]. cbv zeta in *. destruct (IH (steady_step sin cos sqrt shapes env isGalaxy gT mT
                                       bloomFactor active b i) Hx Hk) as [-> ->].
  unfold steady_step. destruct (decide (i ∈ active)) as [Hi|Hi]; [done|].
  apply steady_particle_other. intros Hik.
  assert (i = x) by lia. by subst.
Qed.

Lemma steady_pass_skips env isGalaxy gT mT bloomFactor (active : gset Z) b x k :
  x ∈ active -> x * 3 <= k < x * 3 + 3 ->
  let b' := steady_pass sin cos sqrt shapes env isGalaxy gT mT bloomFactor active b in
  curr b' k = curr b k /\ cols b' k = cols b k.
Proof. intros Hx Hk. unfold steady_pass. by apply (steady_fold_skips _ _ _ _ _ _ x). Qed.

End SteadyPass.

(** C2: in every frame the set of active indices, rebuilt from empty by the
    fireworks update, holds exactly the head and trail indices of the
    fireworks alive at that update, and the particle pass that follows
    skips each of them: the position and colour entries of an active index
    are after the pass what the fireworks update left there. *)
Theorem C2_steady_pass_skips_active
    (sin cos sqrt : Q -> Q) (shapes : Shapes) (f : Frame) (e : Engine) :
  let live := frame_live f e in
  let active := frame_active f e in
  let before := frame_bursts f e in
  let after := bufs (animate sin cos sqrt shapes f e) in
  (forall x, x ∈ active <-> exists fw, fw ∈ live /\ x ∈ firework_indices fw) /\
  (forall x k, x ∈ active -> x * 3 <= k < x * 3 + 3 ->
               curr after k = curr before k /\ cols after k = cols before k).
Proof.
  intros live active before after. split.
  - intros x. unfold active, frame_active. rewrite update_fireworks_active. cbn [snd].
    split; [intros [H|H]; [set_solver|done] | by right].
  - intros x k Hx Hk. unfold after. rewrite animate_bufs. cbv zeta.
    by apply (steady_pass_skips sin cos sqrt shapes _ _ _ _ _ _ _ x).
Qed.

(** ** The trail of a spark *)

Section Trail.















End Trail.

(** ** The fireworks update, spark by spark *)

Section Units.












End Units.

(** ** Fading of the trail *)

Section Fade.

Local Open Scope Q_scope.















End Fade.

(** ** The trail over a whole frame *)

Section TrailFrame.

Variables sin cos sqrt : Q -> Q.
Variable shapes : Shapes.




End TrailFrame.




(** ** Worked examples *)

(** Six frames of the magic gesture leave Lotus mode on, the seventh enters
    Magic mode. *)
Example debounce_enters_on_seventh :
  isMagicMode (Nat.iter 6 (debounce_step true) (mode start)) = false /\
  isMagicMode (Nat.iter 7 (debounce_step true) (mode start)) = true /\
  magicModeDebounce (Nat.iter 20 (debounce_step true) (mode start)) = 10.
Proof. repeat split; reflexivity. Qed.

(** In Lotus mode with the hand open (bloom factor 1, gT = mT = 0) the
    running target is the lotus target scaled by 3 before the lerp to
    Magic, here with the random draws at 0.5. *)
Example bloom_scales_running_target :
  veq (blend_target zero_fn one_fn sqrt25 demo_shapes (still_env 0) false 0 0 1 zero_buf 0)
      (mkVector3 3 3 3).
Proof. unfold veq. vm_compute. repeat split; reflexivity. Qed.

(** One spark with head 0 and trail [1; 2], positions [k] at flat index
    [k], at rest: after the update the head has fallen by gravity times
    drag, segment 0 is where the head was, segment 1 where segment 0 was. *)
Example trail_snake :
  let fw := mkFirework 0 0 (mkColor 1 1 1) [mkSpark 0 [1; 2]] in
  let b := {| curr := inject_Z; drifts := zero_buf; cols := zero_buf |} in
  let b' := fst (snd (update_fireworks [fw] (b, ∅))) in
  (curr b' 1%Z == 1 - 0.004 * 0.96)%Q /\
  read3 (curr b') 3 = read3 (curr b) 0 /\
  read3 (curr b') 6 = read3 (curr b) 3.
Proof. intros fw b b'. split; [|split]; vm_compute; reflexivity. Qed.
